(** * A proof-of-work ledger: [blockchain.py]

    Shallow embedding of the ledger core of [blockchain.py] (the hasher, the
    puzzle, the chain validator and the [Blockchain] state machine) together
    with the properties its specification states about it.

    Python values are modelled as follows.
    - [int] is [Z]; [str] is [string], each character a code point below 256;
      [List] is [list]; [Set[str]] is [gset string].
    - A number that may be a [float] ([Block.timestamp], [Transaction.amount])
      is a [number]: the ledger only stores and prints such numbers, so a
      float is kept as the text [repr] prints for it.
    - A method of [Blockchain] is a function from the state before the call
      to an outcome (a value or a raised exception) and the state after. *)

From Stdlib Require Import ZArith Ascii String List Lia DecimalString.
From stdpp Require Import base option list gmap strings.

#[local] Open Scope string_scope.
#[local] Open Scope list_scope.
#[local] Open Scope Z_scope.

(** ** [hashlib.sha256]: SHA-256 (FIPS 180-4) on 32-bit words held in [Z] *)

Module SHA256.

Definition wrap (x : Z) : Z := Z.land x 4294967295.

Definition add32 (x y : Z) : Z := wrap (x + y).

Definition rotr (n x : Z) : Z :=
  Z.lor (Z.shiftr x n) (wrap (Z.shiftl x (32 - n))).

Definition not32 (x : Z) : Z := Z.lxor x 4294967295.

Definition ch (x y z : Z) : Z :=
  Z.lxor (Z.land x y) (Z.land (not32 x) z).

Definition maj (x y z : Z) : Z :=
  Z.lxor (Z.lxor (Z.land x y) (Z.land x z)) (Z.land y z).

Definition bsig0 (x : Z) : Z :=
  Z.lxor (Z.lxor (rotr 2 x) (rotr 13 x)) (rotr 22 x).

Definition bsig1 (x : Z) : Z :=
  Z.lxor (Z.lxor (rotr 6 x) (rotr 11 x)) (rotr 25 x).

Definition ssig0 (x : Z) : Z :=
  Z.lxor (Z.lxor (rotr 7 x) (rotr 18 x)) (Z.shiftr x 3).

Definition ssig1 (x : Z) : Z :=
  Z.lxor (Z.lxor (rotr 17 x) (rotr 19 x)) (Z.shiftr x 10).

(** The round constants: the first 32 bits of the fractional parts of the
    cube roots of the first 64 primes (the first one is 0x428a2f98). *)
Definition K : list Z :=
  [ 1116352408; 1899447441; 3049323471; 3921009573;
     961987163; 1508970993; 2453635748; 2870763221;
    3624381080;  310598401;  607225278; 1426881987;
    1925078388; 2162078206; 2614888103; 3248222580;
    3835390401; 4022224774;  264347078;  604807628;
     770255983; 1249150122; 1555081692; 1996064986;
    2554220882; 2821834349; 2952996808; 3210313671;
    3336571891; 3584528711;  113926993;  338241895;
     666307205;  773529912; 1294757372; 1396182291;
    1695183700; 1986661051; 2177026350; 2456956037;
    2730485921; 2820302411; 3259730800; 3345764771;
    3516065817; 3600352804; 4094571909;  275423344;
     430227734;  506948616;  659060556;  883997877;
     958139571; 1322822218; 1537002063; 1747873779;
    1955562222; 2024104815; 2227730452; 2361852424;
    2428436474; 2756734187; 3204031479; 3329325298 ].

(** The eight working variables, also the running digest. *)
Record regs : Type :=
  Regs { ra : Z; rb : Z; rc : Z; rd : Z; re : Z; rf : Z; rg : Z; rh : Z }.

Definition H0 : regs :=
  Regs 0x6a09e667 0xbb67ae85 0x3c6ef372 0xa54ff53a
       0x510e527f 0x9b05688c 0x1f83d9ab 0x5be0cd19.

Definition round (r : regs) (k w : Z) : regs :=
  let t1 := add32 (add32 (add32 (add32 (rh r) (bsig1 (re r)))
                                (ch (re r) (rf r) (rg r))) k) w in
  let t2 := add32 (bsig0 (ra r)) (maj (ra r) (rb r) (rc r)) in
  Regs (add32 t1 t2) (ra r) (rb r) (rc r) (add32 (rd r) t1) (re r) (rf r) (rg r).

(** The message schedule is kept as a window of the last sixteen words;
    [next_word] is W(t) from W(t-16), W(t-15), W(t-7) and W(t-2). *)
Definition next_word (win : list Z) : Z :=
  add32 (add32 (add32 (ssig1 (nth 14 win 0)) (nth 9 win 0))
               (ssig0 (nth 1 win 0))) (nth 0 win 0).

Fixpoint rounds (ks : list Z) (win : list Z) (r : regs) : regs :=
  match ks with
  | [] => r
  | k :: ks' =>
      match win with
      | [] => r
      | w :: win' => rounds ks' (win' ++ [next_word win]) (round r k w)
      end
  end.

Definition compress (h : regs) (block : list Z) : regs :=
  let r := rounds K block h in
  Regs (add32 (ra h) (ra r)) (add32 (rb h) (rb r))
       (add32 (rc h) (rc r)) (add32 (rd h) (rd r))
       (add32 (re h) (re r)) (add32 (rf h) (rf r))
       (add32 (rg h) (rg r)) (add32 (rh h) (rh r)).

(** Padding: a [0x80] byte, zero bytes up to 56 modulo 64, and the bit
    length of the message as a 64-bit big-endian integer. *)
Definition be_bytes (n : nat) (x : Z) : list Z :=
  map (fun i => Z.land (Z.shiftr x (8 * Z.of_nat i)) 255) (rev (seq 0 n)).

Definition pad (msg : list Z) : list Z :=
  let len := Z.of_nat (length msg) in
  let zeros := Z.to_nat ((55 - len) mod 64) in
  msg ++ [128] ++ repeat 0 zeros ++ be_bytes 8 (8 * len).

Fixpoint be_words (bytes : list Z) : list Z :=
  match bytes with
  | b3 :: b2 :: b1 :: b0 :: rest =>
      Z.lor (Z.shiftl b3 24) (Z.lor (Z.shiftl b2 16) (Z.lor (Z.shiftl b1 8) b0))
      :: be_words rest
  | _ => []
  end.

Fixpoint blocks (fuel : nat) (h : regs) (ws : list Z) : regs :=
  match fuel, ws with
  | S fuel', _ :: _ => blocks fuel' (compress h (firstn 16 ws)) (skipn 16 ws)
  | _, _ => h
  end.

Definition digest_words (msg : list Z) : list Z :=
  let ws := be_words (pad msg) in
  let r := blocks (length ws) H0 ws in
  [ra r; rb r; rc r; rd r; re r; rf r; rg r; rh r].

Definition hex_digit (x : Z) : ascii :=
  if x <? 10 then ascii_of_N (Z.to_N (48 + x)) else ascii_of_N (Z.to_N (87 + x)).

Definition hex_word (x : Z) : string :=
  String (hex_digit (Z.land (Z.shiftr x 28) 15))
 (String (hex_digit (Z.land (Z.shiftr x 24) 15))
 (String (hex_digit (Z.land (Z.shiftr x 20) 15))
 (String (hex_digit (Z.land (Z.shiftr x 16) 15))
 (String (hex_digit (Z.land (Z.shiftr x 12) 15))
 (String (hex_digit (Z.land (Z.shiftr x 8) 15))
 (String (hex_digit (Z.land (Z.shiftr x 4) 15))
 (String (hex_digit (Z.land x 15)) EmptyString))))))).

Definition hexdigest (msg : list Z) : string :=
  fold_right (fun w s => String.append (hex_word w) s) EmptyString (digest_words msg).

End SHA256.


(** ** Python strings and numbers *)

(** [str.encode()]: UTF-8. The texts of the model hold code points below
    256 only, which [encode] always accepts; on a text with a lone surrogate
    [str.encode()] raises [UnicodeEncodeError], and the model has such texts
    only inside the chains of other types that a peer can serve. *)
Definition encode (s : string) : list Z :=
  flat_map
    (fun c => let n := Z.of_N (N_of_ascii c) in
              if n <? 128 then [n]
              else [Z.lor 192 (Z.shiftr n 6); Z.lor 128 (Z.land n 63)])
    (list_ascii_of_string s).

(** [str(n)] for an [int], also what an f-string and [json.dumps] print. *)
Definition str (n : Z) : string := NilZero.string_of_int (Z.to_int n).

(** A number that may be a float: an [int], or a [float] given by the text
    Python prints for it. *)
Inductive number : Type :=
| Int (n : Z)
| Float (repr : string).

(** A value of [previous_hash]: the annotation says [str], [genesis_block]
    passes an [int] and the specification allows [None]. *)
Inductive value : Type :=
| VNone
| VInt (n : Z)
| VStr (s : string).

(** Truth value of an operand of [or]. *)
Definition truthy (v : value) : bool :=
  match v with
  | VNone => false
  | VInt n => negb (n =? 0)
  | VStr s => negb (String.eqb s EmptyString)
  end.

(** [==] on such values: an [int] never equals a [str]. *)
Definition value_eqb (v1 v2 : value) : bool :=
  match v1, v2 with
  | VNone, VNone => true
  | VInt n1, VInt n2 => n1 =? n2
  | VStr s1, VStr s2 => String.eqb s1 s2
  | _, _ => false
  end.

(** ** The entities *)

Record Transaction : Type := {
  sender : string;
  recipient : string;
  amount : number
}.

Record Block : Type := {
  index : Z;
  timestamp : number;
  transactions : list Transaction;
  proof : Z;
  previous_hash : value
}.

(** ** [json.dumps] and [DataClassJsonMixin.to_json] *)

Module Json.

Definition quote : ascii := ascii_of_nat 34.
Definition backslash : ascii := ascii_of_nat 92.

Definition hex4 (n : Z) : string :=
  String (SHA256.hex_digit (Z.land (Z.shiftr n 12) 15))
 (String (SHA256.hex_digit (Z.land (Z.shiftr n 8) 15))
 (String (SHA256.hex_digit (Z.land (Z.shiftr n 4) 15))
 (String (SHA256.hex_digit (Z.land n 15)) EmptyString))).

(** [ensure_ascii] escaping of one character: the quote, the backslash and
    every character outside the range from space to tilde. *)
Definition escape (c : ascii) : string :=
  let n := Z.of_N (N_of_ascii c) in
  if n =? 34 then String backslash (String quote EmptyString)
  else if n =? 92 then String backslash (String backslash EmptyString)
  else if n =? 8 then String backslash "b"
  else if n =? 12 then String backslash "f"
  else if n =? 10 then String backslash "n"
  else if n =? 13 then String backslash "r"
  else if n =? 9 then String backslash "t"
  else if (32 <=? n) && (n <=? 126) then String c EmptyString
  else String backslash (String.append "u" (hex4 n)).

(** [json.dumps(s)] for a [str]. *)
Definition dumps_str (s : string) : string :=
  String quote
    (String.append (String.concat EmptyString (map escape (list_ascii_of_string s)))
                   (String quote EmptyString)).

Definition dumps_number (x : number) : string :=
  match x with
  | Int n => str n
  | Float repr => repr
  end.

Definition dumps_value (v : value) : string :=
  match v with
  | VNone => "null"
  | VInt n => str n
  | VStr s => dumps_str s
  end.

(** One [key: value] member of an object. *)
Definition member (key rendered : string) : string :=
  String.append (dumps_str key) (String.append ": " rendered).

Definition object (members : list string) : string :=
  String.append "{" (String.append (String.concat ", " members) "}").

Definition array (items : list string) : string :=
  String.append "[" (String.append (String.concat ", " items) "]").

Definition transaction_to_json (t : Transaction) : string :=
  object [ member "sender" (dumps_str (sender t));
           member "recipient" (dumps_str (recipient t));
           member "amount" (dumps_number (amount t)) ].

(** [block.to_json()]: the fields in their declaration order. *)
Definition to_json (b : Block) : string :=
  object [ member "index" (str (index b));
           member "timestamp" (dumps_number (timestamp b));
           member "transactions" (array (map transaction_to_json (transactions b)));
           member "proof" (str (proof b));
           member "previous_hash" (dumps_value (previous_hash b)) ].

End Json.

(** ** The hasher and the puzzle *)

Definition hash (data : string) : string :=
  SHA256.hexdigest (encode data).

Definition block_hash (block : Block) : string :=
  let data := Json.dumps_str (Json.to_json block) in
  hash data.

Definition valid_proof (last_proof proof : Z) : bool :=
  let guess := hash (String.append (str last_proof) (str proof)) in
  String.eqb (substring 0 4 guess) "0000".

(** Digests are compared, never unfolded, in the proofs below; they are
    computed with [vm_compute] where a concrete one is needed. *)
Arguments hash : simpl never.
Arguments block_hash : simpl never.
Arguments valid_proof : simpl never.

(** The [while] loop of [proof_of_work], run for at most [fuel] tests of the
    puzzle: [None] when the fuel runs out before a proof is found. *)
Fixpoint proof_of_work_loop (fuel : nat) (last_proof proof : Z) : option Z :=
  match fuel with
  | O => None
  | S fuel' =>
      if valid_proof last_proof proof then Some proof
      else proof_of_work_loop fuel' last_proof (proof + 1)
  end.

Definition proof_of_work (fuel : nat) (last_proof : Z) : option Z :=
  proof_of_work_loop fuel last_proof 0.

(** ** The chain validator *)

(** The [for] loop of [valid_chain]; [last_block] is [None] until the first
    block has been seen. *)
Fixpoint valid_chain_loop (last_block : option Block) (chain : list Block) : bool :=
  match chain with
  | [] => true
  | block :: rest =>
      match last_block with
      | None => valid_chain_loop (Some block) rest
      | Some last_block =>
          if negb (value_eqb (previous_hash block) (VStr (block_hash last_block)))
          then false
          else if negb (valid_proof (proof last_block) (proof block))
          then false
          else valid_chain_loop (Some block) rest
      end
  end.

Definition valid_chain (chain : list Block) : bool :=
  valid_chain_loop None chain.

Arguments valid_chain : simpl never.

(** ** The ledger state machine *)

Record Blockchain : Type := {
  nodes : gset string;
  chain : list Block;
  unverified_transactions : list Transaction
}.

Inductive exn : Type :=
| AttributeError
| IndexError
| KeyError
| TypeError
| ValueError
| UnicodeEncodeError
| ConnectionError.

Inductive outcome (A : Type) : Type :=
| Returns (a : A)
| Raises (e : exn).

Arguments Returns {A} a.
Arguments Raises {A} e.

(** A method of [Blockchain]: from [self] before the call to what the call
    does (return or raise) and [self] after it. *)
Definition M (A : Type) : Type := Blockchain -> outcome A * Blockchain.

Definition ret {A : Type} (a : A) : M A := fun self => (Returns a, self).

Definition raise {A : Type} (e : exn) : M A := fun self => (Raises e, self).

Definition bind {A B : Type} (c : M A) (k : A -> M B) : M B :=
  fun self =>
    match c self with
    | (Returns a, self') => k a self'
    | (Raises e, self') => (Raises e, self')
    end.

Notation "'let!' x ':=' c 'in' k" := (bind c (fun x => k))
  (at level 10, x name, c at level 100, k at level 200).

Definition gets {A : Type} (f : Blockchain -> A) : M A :=
  fun self => (Returns (f self), self).

Definition set_nodes (v : gset string) : M unit :=
  fun self => (Returns tt, {| nodes := v; chain := chain self;
                              unverified_transactions := unverified_transactions self |}).

Definition set_chain (v : list Block) : M unit :=
  fun self => (Returns tt, {| nodes := nodes self; chain := v;
                              unverified_transactions := unverified_transactions self |}).

Definition set_unverified_transactions (v : list Transaction) : M unit :=
  fun self => (Returns tt, {| nodes := nodes self; chain := chain self;
                              unverified_transactions := v |}).

Definition register_node (address : string) : M unit :=
  let! nodes := gets nodes in
  set_nodes ({[address]} ∪ nodes).

(** [self.chain[-1]] raises [IndexError] on an empty list. *)
Definition last_block : M Block :=
  let! chain := gets chain in
  match last chain with
  | Some block => ret block
  | None => raise IndexError
  end.

Definition new_transaction (sender recipient : string) (amount : number) : M Transaction :=
  let transaction := {| sender := sender; recipient := recipient; amount := amount |} in
  let! pending := gets unverified_transactions in
  let! _ := set_unverified_transactions (pending ++ [transaction]) in
  ret transaction.

(** [self.last_block_hash]: [Blockchain] has the property [last_block] and
    no attribute of this name, so the lookup raises [AttributeError]. *)
Definition last_block_hash : M value := raise AttributeError.

(** [now] is what [time()] returns during the call. The block keeps the list
    object that was the pending pool and [self.unverified_transactions] is
    bound to a new empty list, so later submissions do not reach the block. *)
Definition new_block (proof : Z) (previous_hash : value) (now : number) : M Block :=
  let! transactions := gets unverified_transactions in
  let! chain := gets chain in
  let! previous_hash :=
    (if truthy previous_hash then ret previous_hash else last_block_hash) in
  let block := {| index := Z.of_nat (length chain) + 1; timestamp := now;
                  transactions := transactions; proof := proof;
                  previous_hash := previous_hash |} in
  let! _ := set_unverified_transactions [] in
  let! _ := set_chain (chain ++ [block]) in
  ret block.

Definition genesis_block (now : number) : M Block :=
  new_block 100 (VInt 1) now.

Definition __init__ (now : number) : M unit :=
  let! _ := set_chain [] in
  let! _ := set_nodes ∅ in
  let! _ := set_unverified_transactions [] in
  let! _ := genesis_block now in
  ret tt.

(** *** Reconciliation *)

Definition CHAIN_ENDPOINT : string := "chain".

(** What [Block.load_many] makes of the [chain] entry of a body.
    [Block.load] checks no type, so the blocks it builds can hold values of
    other types than the dataclasses declare. On blocks of the declared
    types, [valid_chain] is the function above. On other blocks it can
    raise (a proof that is a text with a lone surrogate makes [hash] raise
    in [encode]) or answer [False]; such a chain is given by its length and
    by what [valid_chain] does on it. Blocks of other types that
    [valid_chain] accepts are not modelled: the ledger would hold them. *)
Inductive loaded : Type :=
| Typed (chain : list Block)
| IllTyped (n : nat) (raised : option exn).

(** [len(chain)] *)
Definition len (chain : loaded) : nat :=
  match chain with
  | Typed chain => length chain
  | IllTyped n _ => n
  end.

(** [valid_chain(chain)] *)
Definition valid_chain_loaded (chain : loaded) : M bool :=
  match chain with
  | Typed chain => ret (valid_chain chain)
  | IllTyped _ (Some e) => raise e
  | IllTyped _ None => ret false
  end.

(** The blocks that become [self.chain]; only a chain that [valid_chain]
    accepts gets there. *)
Definition blocks (chain : loaded) : list Block :=
  match chain with
  | Typed chain => chain
  | IllTyped _ _ => []
  end.

(** What [resolve_conflicts] reads of a response: its status code, and the
    result of [Block.load_many(response.json()['chain'])], which raises when
    the body is not JSON, has no [chain] entry or holds a block or transaction
    with a missing or unknown field. A [chain] entry that is an empty
    dictionary or an empty text loads into no block at all. *)
Record Response : Type := {
  status_code : Z;
  json_chain : outcome loaded
}.

(** The network as [requests.get] sees it: per URL, a response or the
    exception raised when the peer cannot be reached. *)
Definition network : Type := string -> outcome Response.

Definition requests_get (net : network) (url : string) : M Response :=
  fun self => (net url, self).

Definition load_many (response : Response) : M loaded :=
  fun self => (json_chain response, self).

Definition chain_url (node : string) : string :=
  String.append "http://" (String.append node (String.append "/" CHAIN_ENDPOINT)).

(** The [for] loop of [resolve_conflicts] over the nodes still to visit.
    [and] evaluates [valid_chain(chain)] only when the chain is longer. *)
Fixpoint resolve_conflicts_loop (net : network) (nodes : list string) (replaced : bool)
  : M bool :=
  match nodes with
  | [] => ret replaced
  | node :: rest =>
      let! response := requests_get net (chain_url node) in
      if status_code response =? 200 then
        let! chain' := load_many response in
        let! own := gets chain in
        if (length own <? len chain')%nat then
          let! valid := valid_chain_loaded chain' in
          if valid then
            let! _ := set_chain (blocks chain') in
            resolve_conflicts_loop net rest true
          else resolve_conflicts_loop net rest replaced
        else resolve_conflicts_loop net rest replaced
      else resolve_conflicts_loop net rest replaced
  end.

(** [order] is the order in which [for node in self.nodes] visits the set. *)
Definition resolve_conflicts (net : network) (order : list string) : M bool :=
  resolve_conflicts_loop net order false.

(** *** The [/mine] route *)

(** The statements of the route before its [return]. The route works on the
    ledger of the module, here [self]; [node_identifier] is the identifier
    the module draws at start-up. [fuel] bounds the search of
    [proof_of_work]; [None] stands for a search that has not ended after
    [fuel] tests, and then nothing has been done to the ledger yet. *)
Definition mine_seal (fuel : nat) (node_identifier : string) (now : number)
  : M (option (Block * Transaction)) :=
  let! last_block := last_block in
  let last_proof := proof last_block in
  match proof_of_work fuel last_proof with
  | None => ret None
  | Some proof =>
      let! mining_fee := new_transaction "0" node_identifier (Int 1) in
      let previous_hash := block_hash last_block in
      let! block := new_block proof (VStr previous_hash) now in
      ret (Some (block, mining_fee))
  end.

(** The route. Its last statement hands the block and the fee to [json] of
    [sanic.response], which builds the text of the response or raises (a
    [TypeError] when it cannot serialise a dataclass); [json] is what that
    call does. *)
Definition mine (json : Block -> Transaction -> outcome string) (fuel : nat)
  (node_identifier : string) (now : number) : M (option string) :=
  let! sealed := mine_seal fuel node_identifier now in
  match sealed with
  | None => ret None
  | Some (block, mining_fee) =>
      match json block mining_fee with
      | Returns response => ret (Some response)
      | Raises e => raise e
      end
  end.

(** * Vocabulary of the properties *)

(** The two tests [valid_chain] makes on a block and the one before it. *)
Definition linked (prev curr : Block) : bool :=
  value_eqb (previous_hash curr) (VStr (block_hash prev))
  && valid_proof (proof prev) (proof curr).

(** The block [genesis_block] builds when the clock reads [now]. *)
Definition genesis (now : number) : Block :=
  {| index := 1; timestamp := now; transactions := [];
     proof := 100; previous_hash := VInt 1 |}.

(** A chain carrying the given indices and timestamps, each block linked to
    the one before it; every proof is 144085, which solves the puzzle
    against itself. *)
Fixpoint labelled_chain (previous_hash : value) (labels : list (Z * number))
  : list Block :=
  match labels with
  | [] => []
  | (i, t) :: rest =>
      let block := {| index := i; timestamp := t; transactions := [];
                      proof := 144085; previous_hash := previous_hash |} in
      block :: labelled_chain (VStr (block_hash block)) rest
  end.

(** The end-to-end scenario of the specification: a fresh ledger, two
    submitted transfers, and the block that seals them. *)
Definition t0 : number := Float "1541234567.25".
Definition t1 : number := Float "1541234599.5".

Definition empty_ledger : Blockchain :=
  {| nodes := ∅; chain := []; unverified_transactions := [] |}.

Definition fresh_ledger : Blockchain :=
  {| nodes := ∅; chain := [genesis t0]; unverified_transactions := [] |}.

Definition transfer_AB : Transaction :=
  {| sender := "A"; recipient := "B"; amount := Int 10 |}.

Definition transfer_BC : Transaction :=
  {| sender := "B"; recipient := "C"; amount := Int 5 |}.

Definition pending_ledger : Blockchain :=
  {| nodes := ∅; chain := [genesis t0];
     unverified_transactions := [transfer_AB; transfer_BC] |}.

Definition sealed_block : Block :=
  {| index := 2; timestamp := t1; transactions := [transfer_AB; transfer_BC];
     proof := 35293; previous_hash := VStr (block_hash (genesis t0)) |}.

Definition sealed_ledger : Blockchain :=
  {| nodes := ∅; chain := [genesis t0; sealed_block];
     unverified_transactions := [] |}.

(** A ledger reached from a fresh one by submitting transfers, registering
    peers and sealing [n] blocks, each with the proof [proof_of_work] finds
    for the last block's proof and with the last block's fingerprint. *)
Inductive mined : nat -> Blockchain -> Prop :=
| mined_init (now : number) (self0 self : Blockchain) :
    __init__ now self0 = (Returns tt, self) ->
    mined 0 self
| mined_transaction (n : nat) (self : Blockchain) (sender recipient : string)
    (amount : number) :
    mined n self ->
    mined n (snd (new_transaction sender recipient amount self))
| mined_register (n : nat) (self : Blockchain) (address : string) :
    mined n self ->
    mined n (snd (register_node address self))
| mined_block (n : nat) (self self' : Blockchain) (last block : Block)
    (fuel : nat) (p : Z) (now : number) :
    mined n self ->
    last_block self = (Returns last, self) ->
    proof_of_work fuel (proof last) = Some p ->
    new_block p (VStr (block_hash last)) now self = (Returns block, self') ->
    mined (S n) self'.

(** What one turn of the loop of [resolve_conflicts] finds at a peer: a
    response that is not a success and is passed over, a chain of blocks of
    the declared types to compare with the local one, a chain of blocks of
    other types (its length, and the exception [valid_chain] raises on it if
    any), or an exception raised before any chain is loaded. *)
Inductive visit_result : Type :=
| Skip
| Offer (chain : list Block)
| Odd (n : nat) (raised : option exn)
| Fail (e : exn).

Definition visit (net : network) (node : string) : visit_result :=
  match net (chain_url node) with
  | Raises e => Fail e
  | Returns response =>
      if status_code response =? 200 then
        match json_chain response with
        | Raises e => Fail e
        | Returns (Typed chain) => Offer chain
        | Returns (IllTyped n raised) => Odd n raised
        end
      else Skip
  end.



(** A peer at which the loop can raise: it cannot be reached, its body does
    not load, or [valid_chain] raises on the chain it loads into. *)
Definition may_raise (net : network) (node : string) : bool :=
  match visit net node with
  | Fail _ => true
  | Odd _ (Some _) => true
  | _ => false
  end.

(** The ledger after [self.chain = chain]. *)
Definition adopt (chain : list Block) (self : Blockchain) : Blockchain :=
  {| nodes := nodes self; chain := chain;
     unverified_transactions := unverified_transactions self |}.

(** A chain that reconciliation may adopt: fetched from a registered peer,
    strictly longer than the local chain, and valid. *)
Definition candidate (net : network) (self : Blockchain) (c : list Block) : Prop :=
  exists node,
    node ∈ nodes self /\ visit net node = Offer c /\
    (length (chain self) < length c)%nat /\ valid_chain c = true.

(** Two peers and the chains they may serve. *)
Definition alice : string := "alice:5000".
Definition bob : string := "bob:5000".

Definition t2 : number := Float "1541234650.75".

Definition third_block : Block :=
  {| index := 3; timestamp := t2; transactions := [];
     proof := 35089; previous_hash := VStr (block_hash sealed_block) |}.

Definition chain2 : list Block := [genesis t0; sealed_block].
Definition chain3 : list Block := [genesis t0; sealed_block; third_block].

Definition peers_ledger : Blockchain :=
  {| nodes := {[alice]} ∪ ({[bob]} ∪ ∅); chain := [genesis t0];
     unverified_transactions := [] |}.

Definition serves (chain : list Block) : outcome Response :=
  Returns {| status_code := 200; json_chain := Returns (Typed chain) |}.




(** Both peers serve a valid chain, [alice] the longer one. *)
Definition good_net : network :=
  fun url => if String.eqb url (chain_url bob) then serves chain2
             else serves chain3.

(** A third peer, out of reach, visited between one that serves a valid
    chain and one that serves a longer valid chain. *)
Definition carol : string := "carol:5000".

Definition trio_ledger : Blockchain :=
  {| nodes := {[alice]} ∪ ({[bob]} ∪ ({[carol]} ∪ ∅)); chain := [genesis t0];
     unverified_transactions := [] |}.

Definition trio_net : network :=
  fun url => if String.eqb url (chain_url bob) then serves chain2
             else if String.eqb url (chain_url alice) then serves chain3
             else Raises ConnectionError.

(** [bob] serves a valid chain of three blocks; [alice] answers 200 with two
    blocks, one of them with a proof that is a text with a lone surrogate. *)
Definition surrogate_net : network :=
  fun url => if String.eqb url (chain_url bob) then serves chain3
             else Returns {| status_code := 200;
                             json_chain :=
                               Returns (IllTyped 2 (Some UnicodeEncodeError)) |}.



(** A ledger that never reconciled, with the transfers submitted to it so
    far, in order: built by [__init__], then changed by [new_transaction],
    [register_node], [new_block] (with any arguments, whatever the outcome)
    and runs of [mine] that sealed a block, which submit the fee. *)
Inductive submitted : list Transaction -> Blockchain -> Prop :=
| submitted_init (now : number) (self0 self : Blockchain) :
    __init__ now self0 = (Returns tt, self) ->
    submitted [] self
| submitted_transaction (txs : list Transaction) (self : Blockchain)
    (sender recipient : string) (amount : number) :
    submitted txs self ->
    submitted
      (txs ++ [{| sender := sender; recipient := recipient; amount := amount |}])
      (snd (new_transaction sender recipient amount self))
| submitted_register (txs : list Transaction) (self : Blockchain)
    (address : string) :
    submitted txs self ->
    submitted txs (snd (register_node address self))
| submitted_block (txs : list Transaction) (self : Blockchain) (proof : Z)
    (previous_hash : value) (now : number) :
    submitted txs self ->
    submitted txs (snd (new_block proof previous_hash now self))
| submitted_mine (txs : list Transaction) (self self' : Blockchain)
    (fuel : nat) (node_identifier : string) (now : number) (block : Block)
    (fee : Transaction) :
    submitted txs self ->
    mine_seal fuel node_identifier now self
    = (Returns (Some (block, fee)), self') ->
    submitted (txs ++ [fee]) self'.

(** The characters of a digest. *)
Definition is_hex (c : ascii) : bool :=
  let n := Z.of_N (N_of_ascii c) in
  ((48 <=? n) && (n <=? 57)) || ((97 <=? n) && (n <=? 102)).

(** The genesis block sealed at another time. *)
Definition genesis_later : Block := genesis t1.

(** * Properties *)

(** ** The hasher *)

Example sha256_abc :
  hash "abc" = "ba7816bf8f01cfea414140de5dae2223b00361a396177a9cb410ff61f20015ad".
Proof. vm_compute. reflexivity. Qed.

Example sha256_two_blocks :
  hash "abcdbcdecdefdefgefghfghighijhijkijkljklmklmnlmnomnopnopq"
  = "248d6a61d20638b8e5c026930c3e6039a33ce45964ff2167f6ecedd419db06c1".
Proof. vm_compute. reflexivity. Qed.

(** The fingerprint of the genesis block sealed at [t0], as [hashlib] and
    [json] give it. *)
Example block_hash_genesis :
  block_hash (genesis t0)
  = "8de2f796cd2265eebffb34627eeff072671f0de0b797f9383d36f0d532579e5d".
Proof. vm_compute. reflexivity. Qed.

Lemma string_length_append (s1 s2 : string) :
  String.length (String.append s1 s2) = (String.length s1 + String.length s2)%nat.
Proof. induction s1 as [|c s1 IH]; simpl; [reflexivity | now rewrite IH]. Qed.

Lemma hex_word_length (x : Z) : String.length (SHA256.hex_word x) = 8%nat.
Proof. reflexivity. Qed.

(** A digest is always 64 hexadecimal characters long. *)
Lemma hash_length (data : string) : String.length (hash data) = 64%nat.
Proof.
  unfold hash, SHA256.hexdigest, SHA256.digest_words.
  cbn [fold_right].
  rewrite !string_length_append, !hex_word_length. reflexivity.
Qed.

Lemma hash_truthy (data : string) : truthy (VStr (hash data)) = true.
Proof.
  pose proof (hash_length data) as Hlen.
  unfold truthy. destruct (hash data); [discriminate Hlen | reflexivity].
Qed.

Lemma list_ascii_of_string_append (s1 s2 : string) :
  list_ascii_of_string (String.append s1 s2)
  = list_ascii_of_string s1 ++ list_ascii_of_string s2.
Proof.
  induction s1 as [|c s1 IH]; [reflexivity |].
  change (String.append (String c s1) s2) with (String c (String.append s1 s2)).
  cbn [list_ascii_of_string app]. f_equal. exact IH.
Qed.

Lemma hex_digit_is_hex (x : Z) :
  is_hex (SHA256.hex_digit (Z.land x 15)) = true.
Proof.
  change 15 with (Z.ones 4). rewrite Z.land_ones by lia.
  pose proof (Z.mod_pos_bound x (2 ^ 4) ltac:(lia)) as Hbound.
  set (v := x mod 2 ^ 4) in *.
  assert (Hv : v = 0 \/ v = 1 \/ v = 2 \/ v = 3 \/ v = 4 \/ v = 5 \/ v = 6 \/
               v = 7 \/ v = 8 \/ v = 9 \/ v = 10 \/ v = 11 \/ v = 12 \/
               v = 13 \/ v = 14 \/ v = 15) by lia.
  repeat (destruct Hv as [-> | Hv]; [reflexivity |]). now subst v; rewrite Hv.
Qed.

Lemma hex_word_is_hex (x : Z) :
  forallb is_hex (list_ascii_of_string (SHA256.hex_word x)) = true.
Proof.
  unfold SHA256.hex_word. cbn [list_ascii_of_string forallb].
  rewrite !hex_digit_is_hex. reflexivity.
Qed.

(** The digest computed for a text that [encode] accepts is 64 characters
    long, each a digit or a letter from [a] to [f]; so it is never the empty
    text. *)
Lemma hash_hex_digest (data : string) :
  String.length (hash data) = 64%nat /\
  forallb is_hex (list_ascii_of_string (hash data)) = true /\
  hash data <> EmptyString.
Proof.
  split; [| split].
  - unfold hash, SHA256.hexdigest, SHA256.digest_words. cbn [fold_right].
    rewrite !string_length_append, !hex_word_length. reflexivity.
  - unfold hash, SHA256.hexdigest, SHA256.digest_words. cbn [fold_right].
    rewrite !list_ascii_of_string_append, !forallb_app, !hex_word_is_hex.
    reflexivity.
  - intros Hempty.
    assert (Hlen : String.length (hash data) = 64%nat).
    { unfold hash, SHA256.hexdigest, SHA256.digest_words. cbn [fold_right].
      rewrite !string_length_append, !hex_word_length. reflexivity. }
    rewrite Hempty in Hlen. discriminate Hlen.
Qed.

(** From here on a digest is a black box. *)
#[global] Opaque hash.

(** ** The puzzle *)

Example valid_proof_100 : valid_proof 100 35293 = true.
Proof. vm_compute. reflexivity. Qed.

Example proof_of_work_272 : proof_of_work 300 272 = Some 275.
Proof. vm_compute. reflexivity. Qed.

Section ProofOfWork.

Variable last_proof : Z.

Lemma proof_of_work_loop_sound (fuel : nat) :
  forall start r,
    proof_of_work_loop fuel last_proof start = Some r ->
    start <= r /\ valid_proof last_proof r = true /\
    forall q, start <= q < r -> valid_proof last_proof q = false.
Proof.
  induction fuel as [|fuel IH]; intros start r Hrun; simpl in Hrun.
  - discriminate.
  - destruct (valid_proof last_proof start) eqn:Htest.
    + injection Hrun as <-. repeat split; [lia | assumption | intros q Hq; lia].
    + destruct (IH _ _ Hrun) as (Hle & Hok & Hmin).
      repeat split; [lia | assumption |].
      intros q Hq. destruct (Z.eq_dec q start) as [-> | Hne]; [assumption |].
      apply Hmin. lia.
Qed.

Lemma proof_of_work_loop_complete (p : Z) :
  valid_proof last_proof p = true ->
  forall fuel start,
    start <= p -> (Z.to_nat (p - start) < fuel)%nat ->
    exists r, proof_of_work_loop fuel last_proof start = Some r.
Proof.
  intros Hp fuel. induction fuel as [|fuel IH]; intros start Hle Hfuel.
  - lia.
  - simpl. destruct (valid_proof last_proof start) eqn:Htest.
    + eauto.
    + assert (start <> p) by congruence.
      apply IH; lia.
Qed.

Lemma proof_of_work_loop_more_fuel (fuel fuel' : nat) :
  forall start r,
    proof_of_work_loop fuel last_proof start = Some r ->
    (fuel <= fuel')%nat ->
    proof_of_work_loop fuel' last_proof start = Some r.
Proof.
  revert fuel'. induction fuel as [|fuel IH]; intros fuel' start r Hrun Hle.
  - discriminate.
  - destruct fuel' as [|fuel']; [lia |].
    simpl in *. destruct (valid_proof last_proof start); [assumption |].
    apply IH; [assumption | lia].
Qed.

End ProofOfWork.

(** C3: when some non-negative integer solves the puzzle for [last_proof],
    the search of [proof_of_work] ends (with enough fuel, and then with any
    larger amount) and returns the smallest non-negative integer [r] with
    [valid_proof last_proof r]: [r] is valid, no smaller [q] is, and no run
    returns anything else. *)
Theorem proof_of_work_smallest (last_proof : Z) :
  (exists p, 0 <= p /\ valid_proof last_proof p = true) ->
  exists fuel r,
    (forall fuel', (fuel <= fuel')%nat -> proof_of_work fuel' last_proof = Some r) /\
    (forall fuel' r', proof_of_work fuel' last_proof = Some r' -> r' = r) /\
    0 <= r /\
    valid_proof last_proof r = true /\
    (forall q, 0 <= q < r -> valid_proof last_proof q = false).
Proof.
  intros (p & Hp0 & Hp).
  destruct (proof_of_work_loop_complete last_proof p Hp (S (Z.to_nat p)) 0)
    as [r Hrun]; [lia | lia |].
  destruct (proof_of_work_loop_sound _ _ _ _ Hrun) as (Hr0 & Hr & Hmin).
  exists (S (Z.to_nat p)), r. repeat split; try assumption.
  - intros fuel' Hfuel. unfold proof_of_work.
    eapply proof_of_work_loop_more_fuel; eassumption.
  - intros fuel' r' Hrun'.
    destruct (proof_of_work_loop_sound _ _ _ _ Hrun') as (Hr0' & Hr' & Hmin').
    destruct (Z.lt_trichotomy r' r) as [Hlt | [Heq | Hgt]]; [| assumption |].
    + rewrite Hmin in Hr' by lia. discriminate.
    + rewrite Hmin' in Hr by lia. discriminate.
Qed.

Lemma proof_of_work_smallest_witness :
  (exists p, 0 <= p /\ valid_proof 100 p = true) /\
  exists fuel r,
    (forall fuel', (fuel <= fuel')%nat -> proof_of_work fuel' 100 = Some r) /\
    (forall fuel' r', proof_of_work fuel' 100 = Some r' -> r' = r) /\
    0 <= r /\
    valid_proof 100 r = true /\
    (forall q, 0 <= q < r -> valid_proof 100 q = false).
Proof.
  assert (H : exists p, 0 <= p /\ valid_proof 100 p = true).
  { exists 35293. split; [lia | vm_compute; reflexivity]. }
  split; [exact H | exact (proof_of_work_smallest 100 H)].
Defined.

(** C10: [valid_proof] reads its two arguments only through the text
    [str last_proof] followed by [str proof]: two pairs with the same
    concatenation get the same verdict. *)
Theorem valid_proof_concatenation (a b c d : Z) :
  String.append (str a) (str b) = String.append (str c) (str d) ->
  valid_proof a b = valid_proof c d.
Proof.
  intros Hcat. unfold valid_proof. rewrite Hcat. reflexivity.
Qed.

Lemma valid_proof_concatenation_witness :
  String.append (str 1) (str 23) = String.append (str 12) (str 3) /\
  (1, 23) <> (12, 3) /\
  valid_proof 1 23 = valid_proof 12 3.
Proof.
  split; [reflexivity |].
  split; [discriminate |].
  apply (valid_proof_concatenation 1 23 12 3). reflexivity.
Defined.

(** ** The chain validator *)

Example valid_proof_fixed_point : valid_proof 144085 144085 = true.
Proof. vm_compute. reflexivity. Qed.

Lemma value_eqb_str (v : value) (s : string) :
  value_eqb v (VStr s) = true <-> v = VStr s.
Proof.
  destruct v as [|n|s']; simpl; try (split; [discriminate | discriminate]).
  rewrite String.eqb_eq. split; [intros -> | intros [= ->]]; reflexivity.
Qed.

Lemma linked_spec (prev curr : Block) :
  linked prev curr = true <->
  previous_hash curr = VStr (block_hash prev) /\
  valid_proof (proof prev) (proof curr) = true.
Proof.
  unfold linked. rewrite andb_true_iff, value_eqb_str. reflexivity.
Qed.

Lemma valid_chain_loop_step (last_block block : Block) (rest : list Block) :
  valid_chain_loop (Some last_block) (block :: rest)
  = linked last_block block && valid_chain_loop (Some block) rest.
Proof.
  unfold linked. cbn [valid_chain_loop].
  destruct (value_eqb _ _); cbn [negb andb]; [| reflexivity].
  destruct (valid_proof _ _); reflexivity.
Qed.

Lemma valid_chain_cons (a b : Block) (rest : list Block) :
  valid_chain (a :: b :: rest) = linked a b && valid_chain (b :: rest).
Proof.
  unfold valid_chain. cbn [valid_chain_loop].
  apply valid_chain_loop_step.
Qed.

Lemma valid_chain_pairs (chain : list Block) :
  valid_chain chain = true <->
  forall (i : nat) prev curr,
    chain !! i = Some prev -> chain !! S i = Some curr -> linked prev curr = true.
Proof.
  induction chain as [|a [|b rest] IH].
  - split; [intros _ i prev curr Hi; discriminate Hi | reflexivity].
  - split; [intros _ i prev curr Hi Hs; discriminate Hs | reflexivity].
  - rewrite valid_chain_cons, andb_true_iff, IH. split.
    + intros [Hab Hrest] [|i] prev curr Hi Hs.
      * injection Hi as <-. injection Hs as <-. exact Hab.
      * exact (Hrest i prev curr Hi Hs).
    + intros Hall. split.
      * exact (Hall 0%nat a b eq_refl eq_refl).
      * intros i prev curr Hi Hs. exact (Hall (S i) prev curr Hi Hs).
Qed.

Lemma labelled_chain_labels (v : value) (labels : list (Z * number)) :
  map (fun b => (index b, timestamp b)) (labelled_chain v labels) = labels.
Proof.
  revert v. induction labels as [|[i t] rest IH]; intros v; cbn.
  - reflexivity.
  - now rewrite IH.
Qed.

Lemma labelled_chain_valid (v : value) (labels : list (Z * number)) :
  valid_chain (labelled_chain v labels) = true.
Proof.
  revert v. induction labels as [|[i t] [|[i' t'] rest] IH]; intros v.
  - reflexivity.
  - reflexivity.
  - cbn [labelled_chain] in *. rewrite valid_chain_cons, IH, andb_true_r.
    apply linked_spec. split; [reflexivity | exact valid_proof_fixed_point].
Qed.

(** C5: [valid_chain] accepts the empty chain and every single block, and
    accepts a longer chain exactly when every block names the fingerprint of
    the block before it and solves the puzzle against that block's proof.
    Indices and timestamps are never tested: any sequence of indices and
    timestamps is carried by some chain that [valid_chain] accepts. *)
Theorem valid_chain_adjacent_pairs :
  valid_chain [] = true /\
  (forall b, valid_chain [b] = true) /\
  (forall chain,
     valid_chain chain = true <->
     forall (i : nat) prev curr,
       chain !! i = Some prev -> chain !! S i = Some curr ->
       previous_hash curr = VStr (block_hash prev) /\
       valid_proof (proof prev) (proof curr) = true) /\
  (forall labels : list (Z * number),
     exists chain,
       map (fun b => (index b, timestamp b)) chain = labels /\
       valid_chain chain = true).
Proof.
  split; [reflexivity |]. split; [reflexivity |]. split.
  - intros chain. rewrite valid_chain_pairs.
    split; intros H i prev curr Hi Hs; apply linked_spec; eauto.
  - intros labels. exists (labelled_chain VNone labels).
    split; [apply labelled_chain_labels | apply labelled_chain_valid].
Qed.

(** ** Sealing a block *)

Lemma new_block_returns (proof : Z) (previous_hash : value) (now : number)
  (self : Blockchain) :
  truthy previous_hash = true ->
  new_block proof previous_hash now self
  = (Returns {| index := Z.of_nat (length (chain self)) + 1; timestamp := now;
                transactions := unverified_transactions self; proof := proof;
                previous_hash := previous_hash |},
     {| nodes := nodes self;
        chain := chain self ++
                 [{| index := Z.of_nat (length (chain self)) + 1; timestamp := now;
                     transactions := unverified_transactions self; proof := proof;
                     previous_hash := previous_hash |}];
        unverified_transactions := [] |}).
Proof.
  intros Htruthy. unfold new_block, bind, gets. rewrite Htruthy. reflexivity.
Qed.

Lemma new_block_raises (proof : Z) (previous_hash : value) (now : number)
  (self : Blockchain) :
  truthy previous_hash = false ->
  new_block proof previous_hash now self = (Raises AttributeError, self).
Proof.
  intros Hfalsy. unfold new_block, bind, gets. rewrite Hfalsy. reflexivity.
Qed.

(** C2 (defect of the code): sealing with no [previous_hash] does not fall
    back on the fingerprint of the last block. The fallback reads
    [self.last_block_hash], which [Blockchain] does not define, so the call
    raises [AttributeError]; no block is built and the ledger is unchanged.
    The same happens for the other values that [or] takes as false, the
    empty text and zero. *)
Theorem new_block_without_previous_hash (proof : Z) (now : number)
  (self : Blockchain) :
  new_block proof VNone now self = (Raises AttributeError, self) /\
  new_block proof (VStr EmptyString) now self = (Raises AttributeError, self) /\
  new_block proof (VInt 0) now self = (Raises AttributeError, self).
Proof. repeat split; apply new_block_raises; reflexivity. Qed.

(** C6: when [new_block] returns, the pending pool is empty, the block
    carries the transfers that were pending, in their order, its index is
    the former chain length plus one, and the chain is the former chain with
    the block appended. *)
Theorem new_block_drains_pending (proof : Z) (previous_hash : value)
  (now : number) (self self' : Blockchain) (block : Block) :
  new_block proof previous_hash now self = (Returns block, self') ->
  unverified_transactions self' = [] /\
  transactions block = unverified_transactions self /\
  index block = Z.of_nat (length (chain self)) + 1 /\
  chain self' = chain self ++ [block] /\
  last (chain self') = Some block /\
  nodes self' = nodes self.
Proof.
  intros Hcall. destruct (truthy previous_hash) eqn:Htruthy.
  - rewrite new_block_returns in Hcall by assumption.
    injection Hcall as <- <-. cbn. rewrite last_snoc. repeat split; reflexivity.
  - rewrite new_block_raises in Hcall by assumption. discriminate.
Qed.

Lemma new_block_drains_pending_witness :
  new_block 35293 (VStr (block_hash (genesis t0))) t1 pending_ledger
  = (Returns sealed_block, sealed_ledger) /\
  unverified_transactions sealed_ledger = [] /\
  transactions sealed_block = [transfer_AB; transfer_BC] /\
  index sealed_block = 2 /\
  chain sealed_ledger = [genesis t0; sealed_block] /\
  last (chain sealed_ledger) = Some sealed_block /\
  nodes sealed_ledger = nodes pending_ledger.
Proof.
  assert (Hcall : new_block 35293 (VStr (block_hash (genesis t0))) t1 pending_ledger
                  = (Returns sealed_block, sealed_ledger)).
  { rewrite new_block_returns by apply hash_truthy. reflexivity. }
  split; [exact Hcall |].
  exact (new_block_drains_pending _ _ _ _ _ _ Hcall).
Defined.

(** ** Construction *)

Lemma init_returns (now : number) (self0 : Blockchain) :
  __init__ now self0
  = (Returns tt, {| nodes := ∅; chain := [genesis now];
                    unverified_transactions := [] |}).
Proof. reflexivity. Qed.

(** C8: a new ledger holds exactly the genesis block, with index 1, proof
    100, previous hash 1 and no transfer; its pending pool and its peer set
    are empty. The genesis block passes validation without solving any
    puzzle: it is valid as a first block, and its previous hash is the
    fingerprint of no block, so it is rejected anywhere else in a chain. *)
Theorem init_genesis (now : number) (self0 : Blockchain) :
  __init__ now self0
  = (Returns tt,
     {| nodes := ∅;
        chain := [{| index := 1; timestamp := now; transactions := [];
                     proof := 100; previous_hash := VInt 1 |}];
        unverified_transactions := [] |}) /\
  valid_chain [genesis now] = true /\
  (forall b, valid_chain [b; genesis now] = false).
Proof.
  split; [reflexivity |]. split; [reflexivity |].
  intros b. rewrite valid_chain_cons. reflexivity.
Qed.

(** ** Chains built by sealing *)

Lemma valid_chain_loop_snoc (chain : list Block) (block : Block) :
  forall o,
    valid_chain_loop o (chain ++ [block])
    = valid_chain_loop o chain
      && match last chain with
         | Some prev => linked prev block
         | None => match o with
                   | Some prev => linked prev block
                   | None => true
                   end
         end.
Proof.
  induction chain as [|a rest IH]; intros o.
  - destruct o as [prev|]; [| reflexivity].
    cbn [app]. rewrite valid_chain_loop_step. cbn. apply andb_comm.
  - rewrite last_cons. cbn [app]. destruct o as [prev|].
    + rewrite !valid_chain_loop_step, IH, andb_assoc.
      destruct (last rest); reflexivity.
    + cbn [valid_chain_loop]. rewrite IH. destruct (last rest); reflexivity.
Qed.

Lemma valid_chain_snoc (chain : list Block) (prev block : Block) :
  last chain = Some prev ->
  valid_chain (chain ++ [block]) = valid_chain chain && linked prev block.
Proof.
  intros Hlast. unfold valid_chain. rewrite valid_chain_loop_snoc, Hlast.
  reflexivity.
Qed.

Lemma last_block_returns (self : Blockchain) (block : Block) (self' : Blockchain) :
  last_block self = (Returns block, self') ->
  last (chain self) = Some block /\ self' = self.
Proof.
  unfold last_block, bind, gets. destruct (last (chain self)) as [b|].
  - intros [= <- <-]. split; reflexivity.
  - discriminate.
Qed.

Lemma mined_invariant (n : nat) (self : Blockchain) :
  mined n self ->
  length (chain self) = S n /\ valid_chain (chain self) = true.
Proof.
  induction 1 as [now self0 self Hinit
                 | n self sender recipient amount _ IH
                 | n self address _ IH
                 | n self self' prev block fuel p now _ IH Hlast Hpow Hseal].
  - rewrite init_returns in Hinit. injection Hinit as <-. split; reflexivity.
  - exact IH.
  - exact IH.
  - destruct IH as [Hlen Hvalid].
    apply last_block_returns in Hlast as [Hlast _].
    rewrite new_block_returns in Hseal by apply hash_truthy.
    injection Hseal as <- <-. cbn [chain]. split.
    + rewrite length_app, Hlen. cbn. lia.
    + rewrite (valid_chain_snoc _ prev) by assumption.
      rewrite Hvalid. apply linked_spec. cbn. split; [reflexivity |].
      apply (proof_of_work_loop_sound _ _ _ _ Hpow).
Qed.

(** Sealing never fails on such a ledger: there is a last block, and its
    fingerprint is a non-empty text. *)
Lemma mined_can_seal (n : nat) (self : Blockchain) :
  mined n self ->
  exists prev,
    last_block self = (Returns prev, self) /\
    forall p now, exists block self',
      new_block p (VStr (block_hash prev)) now self = (Returns block, self').
Proof.
  intros Hmined. destruct (mined_invariant _ _ Hmined) as [Hlen _].
  destruct (last (chain self)) as [prev|] eqn:Hlast.
  - exists prev. split.
    + unfold last_block, bind, gets. rewrite Hlast. reflexivity.
    + intros p now. rewrite new_block_returns by apply hash_truthy. eauto.
  - apply last_None in Hlast. rewrite Hlast in Hlen. discriminate.
Qed.

(** C7: a ledger built from a fresh one by [n] sealed blocks, each with the
    proof [proof_of_work] returns for the last block's proof and with the
    last block's fingerprint, has a chain of [n + 1] blocks that
    [valid_chain] accepts. *)
Theorem mined_chain_valid (n : nat) (self : Blockchain) :
  mined n self ->
  length (chain self) = (n + 1)%nat /\ valid_chain (chain self) = true.
Proof.
  intros Hmined. destruct (mined_invariant _ _ Hmined) as [Hlen Hvalid].
  split; [lia | assumption].
Qed.

Lemma mined_chain_valid_witness :
  exists self,
    mined 1 self /\
    length (chain self) = 2%nat /\ valid_chain (chain self) = true.
Proof.
  destruct (proof_of_work_loop_complete 100 35293 valid_proof_100
              (Z.to_nat 35294) 0) as [p Hpow]; [lia | lia |].
  assert (H0 : mined 0 fresh_ledger).
  { apply (mined_init t0 empty_ledger). reflexivity. }
  assert (H1 : mined 0 pending_ledger).
  { exact (mined_transaction _ _ "B" "C" (Int 5)
             (mined_transaction _ _ "A" "B" (Int 10) H0)). }
  assert (H2 : mined 1 (snd (new_block p (VStr (block_hash (genesis t0))) t1
                               pending_ledger))).
  { eapply (mined_block 0 pending_ledger _ (genesis t0) _ (Z.to_nat 35294) p t1 H1).
    - reflexivity.
    - exact Hpow.
    - rewrite new_block_returns by apply hash_truthy. reflexivity. }
  eexists. split; [exact H2 |].
  exact (mined_chain_valid 1 _ H2).
Defined.

(** ** Reconciliation *)

Example chain2_valid : valid_chain chain2 = true.
Proof. vm_compute. reflexivity. Qed.

Example chain3_valid : valid_chain chain3 = true.
Proof. vm_compute. reflexivity. Qed.

Section Reconciliation.

Variable net : network.

Lemma resolve_conflicts_loop_cons (node : string) (rest : list string)
  (replaced : bool) (self : Blockchain) :
  resolve_conflicts_loop net (node :: rest) replaced self
  = match visit net node with
    | Fail e => (Raises e, self)
    | Skip => resolve_conflicts_loop net rest replaced self
    | Offer c =>
        if (length (chain self) <? length c)%nat && valid_chain c
        then resolve_conflicts_loop net rest true (adopt c self)
        else resolve_conflicts_loop net rest replaced self
    | Odd n (Some e) =>
        if (length (chain self) <? n)%nat then (Raises e, self)
        else resolve_conflicts_loop net rest replaced self
    | Odd n None => resolve_conflicts_loop net rest replaced self
    end.
Proof.
  cbn [resolve_conflicts_loop].
  unfold bind, requests_get, load_many, gets, set_chain, visit, adopt.
  destruct (net (chain_url node)) as [response | e]; [| reflexivity].
  destruct (status_code response =? 200); [| reflexivity].
  destruct (json_chain response) as [[c | n [e |]] | e];
    cbn [len valid_chain_loaded blocks]; try reflexivity.
  - destruct (length (chain self) <? length c)%nat; [| reflexivity].
    unfold ret. destruct (valid_chain c); reflexivity.
  - destruct (length (chain self) <? n)%nat; reflexivity.
  - destruct (length (chain self) <? n)%nat; reflexivity.
Qed.

(** One turn of the loop, by cases on what the peer answers: a status that
    is not 200, a chain that is adopted, a chain that is not, a chain on
    which validation raises, one that is too short for that, a chain of
    other types that is refused, and an exception. *)
Ltac loop_turn node Hvisit Htest :=
  rewrite resolve_conflicts_loop_cons;
  destruct (visit net node) as [| c | n [e |] | e] eqn:Hvisit;
  [ | destruct ((length (chain _) <? length c)%nat && valid_chain c) eqn:Htest
    | destruct (length (chain _) <? n)%nat eqn:Htest | | ].

Lemma resolve_conflicts_loop_frame (order : list string) :
  forall replaced self,
    nodes (snd (resolve_conflicts_loop net order replaced self)) = nodes self /\
    unverified_transactions (snd (resolve_conflicts_loop net order replaced self))
    = unverified_transactions self.
Proof.
  induction order as [|node rest IH]; intros replaced self.
  - split; reflexivity.
  - loop_turn node Hvisit Htest;
      first [ apply IH | split; reflexivity
            | destruct (IH true (adopt c self)) as [-> ->]; split; reflexivity ].
Qed.

Lemma resolve_conflicts_loop_chain (order : list string) :
  forall replaced self,
    let after := snd (resolve_conflicts_loop net order replaced self) in
    chain after = chain self \/
    exists node,
      node ∈ order /\ visit net node = Offer (chain after) /\
      (length (chain self) < length (chain after))%nat /\
      valid_chain (chain after) = true.
Proof.
  assert (Hlater : forall node rest replaced self,
            (let after := snd (resolve_conflicts_loop net rest replaced self) in
             chain after = chain self \/
             exists n,
               n ∈ rest /\ visit net n = Offer (chain after) /\
               (length (chain self) < length (chain after))%nat /\
               valid_chain (chain after) = true) ->
            let after := snd (resolve_conflicts_loop net rest replaced self) in
            chain after = chain self \/
            exists n,
              n ∈ node :: rest /\ visit net n = Offer (chain after) /\
              (length (chain self) < length (chain after))%nat /\
              valid_chain (chain after) = true).
  { intros node rest replaced self [Hsame | (n & Hin & Hrest)];
      [left; exact Hsame | right; exists n; split; [now apply elem_of_cons; right | exact Hrest]]. }
  induction order as [|node rest IH]; intros replaced self; cbn zeta.
  - left. reflexivity.
  - loop_turn node Hvisit Htest;
      try (apply Hlater, IH); try (left; reflexivity).
    apply andb_true_iff in Htest as [Hlonger Hvalid].
    apply Nat.ltb_lt in Hlonger. right.
    destruct (IH true (adopt c self)) as [Hsame | (n & Hin & Hoffer & Hlen & Hok)].
    + exists node. rewrite Hsame. cbn [chain adopt].
      repeat split; [apply elem_of_cons; now left | assumption..].
    + exists n. cbn [chain adopt] in Hlen.
      repeat split; [apply elem_of_cons; now right | assumption | lia | assumption].
Qed.

Lemma resolve_conflicts_loop_length (order : list string) (replaced : bool)
  (self : Blockchain) :
  (length (chain self)
   <= length (chain (snd (resolve_conflicts_loop net order replaced self))))%nat.
Proof.
  destruct (resolve_conflicts_loop_chain order replaced self)
    as [-> | (_ & _ & _ & Hlen & _)]; lia.
Qed.

Lemma resolve_conflicts_loop_returns (order : list string) :
  forall replaced self b after,
    resolve_conflicts_loop net order replaced self = (Returns b, after) ->
    (forall node c,
       node ∈ order -> visit net node = Offer c -> valid_chain c = true ->
       (length c <= length (chain after))%nat) /\
    ((b = replaced /\ chain after = chain self) \/
     (b = true /\ (length (chain self) < length (chain after))%nat)).
Proof.
  induction order as [|node rest IH]; intros replaced self b after Hrun.
  - injection Hrun as <- <-. split; [| left; split; reflexivity].
    intros node c Hin. inversion Hin.
  - revert Hrun. loop_turn node Hvisit Htest; intros Hrun; try discriminate.
    + destruct (IH _ _ _ _ Hrun) as [Hmax Hcase]. split; [| exact Hcase].
      intros n c' [-> | Hin]%elem_of_cons Hoffer Hok; [congruence | eauto].
    + apply andb_true_iff in Htest as [Hlonger Hvalid].
      apply Nat.ltb_lt in Hlonger.
      pose proof (resolve_conflicts_loop_length rest true (adopt c self)) as Hgrow.
      rewrite Hrun in Hgrow. cbn [snd chain adopt] in Hgrow.
      destruct (IH _ _ _ _ Hrun) as [Hmax Hcase]. split.
      * intros n c' [-> | Hin]%elem_of_cons Hoffer Hok; [| eauto].
        rewrite Hvisit in Hoffer. injection Hoffer as <-. exact Hgrow.
      * right. destruct Hcase as [[-> _] | [-> _]]; split; (reflexivity || lia).
    + pose proof (resolve_conflicts_loop_length rest replaced self) as Hgrow.
      rewrite Hrun in Hgrow. cbn [snd] in Hgrow.
      destruct (IH _ _ _ _ Hrun) as [Hmax Hcase]. split; [| exact Hcase].
      intros n c' [-> | Hin]%elem_of_cons Hoffer Hok; [| eauto].
      rewrite Hvisit in Hoffer. injection Hoffer as <-.
      rewrite Hok, andb_true_r in Htest. apply Nat.ltb_ge in Htest. lia.
    + destruct (IH _ _ _ _ Hrun) as [Hmax Hcase]. split; [| exact Hcase].
      intros m c' [-> | Hin]%elem_of_cons Hoffer Hok; [congruence | eauto].
    + destruct (IH _ _ _ _ Hrun) as [Hmax Hcase]. split; [| exact Hcase].
      intros m c' [-> | Hin]%elem_of_cons Hoffer Hok; [congruence | eauto].
Qed.

(** A call that returns met no exception: every peer answered and loaded,
    and a chain on which validation raises was not longer than the chain the
    call ends with. *)
Lemma resolve_conflicts_loop_answers (order : list string) :
  forall replaced self b after,
    resolve_conflicts_loop net order replaced self = (Returns b, after) ->
    forall node, node ∈ order ->
      (forall e, visit net node <> Fail e) /\
      (forall n e, visit net node = Odd n (Some e) ->
                   (n <= length (chain after))%nat).
Proof.
  induction order as [|node rest IH]; intros replaced self b after Hrun m Hin.
  - inversion Hin.
  - revert Hrun. loop_turn node Hvisit Htest; intros Hrun; try discriminate;
      apply elem_of_cons in Hin as [-> | Hin];
      try (exact (IH _ _ _ _ Hrun m Hin));
      rewrite Hvisit; (split; [discriminate |]); intros k e' Hodd;
      try discriminate.
    injection Hodd as <- <-. apply Nat.ltb_ge in Htest.
    pose proof (resolve_conflicts_loop_length rest replaced self) as Hgrow.
    rewrite Hrun in Hgrow. cbn [snd] in Hgrow. lia.
Qed.

Lemma resolve_conflicts_loop_completes (order : list string) :
  (forall node, node ∈ order -> may_raise net node = false) ->
  forall replaced self, exists b after,
    resolve_conflicts_loop net order replaced self = (Returns b, after).
Proof.
  induction order as [|node rest IH]; intros Hcalm replaced self.
  - exists replaced, self. reflexivity.
  - assert (Hrest : forall n, n ∈ rest -> may_raise net n = false).
    { intros n Hin. apply Hcalm, elem_of_cons. now right. }
    assert (Hhere : may_raise net node = false).
    { apply Hcalm, elem_of_cons. now left. }
    unfold may_raise in Hhere.
    loop_turn node Hvisit Htest; try (apply IH; exact Hrest);
      try rewrite Hvisit in Hhere; discriminate Hhere.
Qed.



(** Once no chain on offer is longer and valid, and no chain on which
    validation raises is longer, a visit changes nothing. *)
Lemma resolve_conflicts_loop_settled (order : list string) (self : Blockchain) :
  (forall node, node ∈ order ->
     (forall e, visit net node <> Fail e) /\
     (forall n e, visit net node = Odd n (Some e) ->
                  (n <= length (chain self))%nat)) ->
  (forall node c,
     node ∈ order -> visit net node = Offer c -> valid_chain c = true ->
     (length c <= length (chain self))%nat) ->
  forall replaced,
    resolve_conflicts_loop net order replaced self = (Returns replaced, self).
Proof.
  induction order as [|node rest IH]; intros Hanswer Hmax replaced.
  - reflexivity.
  - assert (Hhere : node ∈ node :: rest) by (apply elem_of_cons; now left).
    assert (IH' : resolve_conflicts_loop net rest replaced self
                  = (Returns replaced, self)).
    { apply IH.
      - intros n Hin. apply Hanswer, elem_of_cons. now right.
      - intros n c Hin. apply Hmax, elem_of_cons. now right. }
    destruct (Hanswer node Hhere) as [Hfail Hodd].
    rewrite resolve_conflicts_loop_cons.
    destruct (visit net node) as [| c | n [e |] | e] eqn:Hvisit.
    + exact IH'.
    + destruct (valid_chain c) eqn:Hvalid.
      * pose proof (Hmax node c Hhere Hvisit Hvalid) as Hlen.
        apply Nat.ltb_ge in Hlen. rewrite Hlen. exact IH'.
      * rewrite andb_false_r. exact IH'.
    + pose proof (Hodd n e eq_refl) as Hlen.
      apply Nat.ltb_ge in Hlen. rewrite Hlen. exact IH'.
    + exact IH'.
    + exfalso. exact (Hfail e eq_refl).
Qed.

End Reconciliation.

Lemma elem_of_order (order : list string) (self : Blockchain) (node : string) :
  order ≡ₚ elements (nodes self) -> node ∈ order <-> node ∈ nodes self.
Proof. intros Hperm. rewrite Hperm. apply elem_of_elements. Qed.




(** C4, as the code has it: reconciliation never shortens the chain.
    Whatever happens, return or exception, the chain afterwards is the
    former chain or a candidate (fetched from a peer, strictly longer than
    the former chain, valid). When the call returns, it returns [true]
    exactly when the chain was replaced, and then the chain is a candidate
    at least as long as every candidate; it returns whenever no peer makes
    the loop raise. *)
Theorem resolve_conflicts_longest_valid (net : network) (order : list string)
  (self after : Blockchain) (out : outcome bool) :
  order ≡ₚ elements (nodes self) ->
  resolve_conflicts net order self = (out, after) ->
  (length (chain self) <= length (chain after))%nat /\
  (chain after = chain self \/ candidate net self (chain after)) /\
  (forall replaced,
     out = Returns replaced ->
     (replaced = true <-> chain after <> chain self) /\
     (replaced = false -> chain after = chain self) /\
     (replaced = true -> candidate net self (chain after)) /\
     (forall c, candidate net self c -> (length c <= length (chain after))%nat)) /\
  ((forall node, node ∈ nodes self -> may_raise net node = false) ->
   exists replaced, out = Returns replaced).
Proof.
  intros Hperm Hrun. unfold resolve_conflicts in Hrun.
  pose proof (resolve_conflicts_loop_length net order false self) as Hgrow.
  pose proof (resolve_conflicts_loop_chain net order false self) as Hchain.
  rewrite Hrun in Hgrow, Hchain. cbn [snd] in Hgrow, Hchain. cbn zeta in Hchain.
  assert (Hcand : chain after = chain self \/ candidate net self (chain after)).
  { destruct Hchain as [Hsame | (node & Hin & Hoffer & Hlen & Hok)]; [now left | right].
    exists node. split; [now apply (elem_of_order order) | auto]. }
  split; [exact Hgrow |]. split; [exact Hcand |]. split.
  - intros replaced ->.
    destruct (resolve_conflicts_loop_returns net _ _ _ _ _ Hrun) as [Hmax Hcase].
    assert (Hiff : replaced = true <-> chain after <> chain self).
    { destruct Hcase as [[-> Hsame] | [-> Hlen]].
      - split; [discriminate | intros Hne; contradiction].
      - split; [| reflexivity]. intros _ Heq. rewrite Heq in Hlen. lia. }
    split; [exact Hiff |]. split; [| split].
    + intros ->. destruct Hcase as [[_ Hsame] | [Hb _]]; [exact Hsame | discriminate].
    + intros Hyes. apply Hiff in Hyes.
      destruct Hcand as [Hsame | Hc]; [contradiction | exact Hc].
    + intros c (node & Hin & Hoffer & _ & Hok).
      apply (Hmax node c); [now apply (elem_of_order order self) | assumption..].
  - intros Hcalm.
    destruct (resolve_conflicts_loop_completes net order) with (replaced := false)
      (self := self) as (b & after' & Hret).
    + intros node Hin. apply Hcalm. now apply (elem_of_order order).
    + rewrite Hret in Hrun. injection Hrun as <- _. eauto.
Qed.

Lemma resolve_conflicts_longest_valid_witness :
  [bob; alice] ≡ₚ elements (nodes peers_ledger) /\
  resolve_conflicts good_net [bob; alice] peers_ledger
  = (Returns true, adopt chain3 peers_ledger) /\
  (length (chain peers_ledger) <= length chain3)%nat /\
  candidate good_net peers_ledger chain3 /\
  (forall c, candidate good_net peers_ledger c -> (length c <= length chain3)%nat).
Proof.
  assert (Hperm : [bob; alice] ≡ₚ elements (nodes peers_ledger)).
  { vm_compute. first [reflexivity | apply perm_swap]. }
  assert (Hrun : resolve_conflicts good_net [bob; alice] peers_ledger
                 = (Returns true, adopt chain3 peers_ledger)).
  { vm_compute. reflexivity. }
  destruct (resolve_conflicts_longest_valid good_net _ _ _ _ Hperm Hrun)
    as (Hgrow & _ & Hret & _).
  destruct (Hret true eq_refl) as (_ & _ & Hcand & Hmax).
  exact (conj Hperm (conj Hrun (conj Hgrow (conj (Hcand eq_refl) Hmax)))).
Defined.

Lemma trio_order : [bob; carol; alice] ≡ₚ elements (nodes trio_ledger).
Proof.
  apply NoDup_Permutation.
  - repeat (apply NoDup_cons; split;
            [rewrite ?elem_of_cons, elem_of_nil; intros H;
             repeat (destruct H as [H | H]; try discriminate H); exact H |]).
    apply NoDup_nil. exact I.
  - apply NoDup_elements.
  - intros node. rewrite elem_of_elements. unfold trio_ledger. cbn [nodes].
    rewrite !elem_of_union, !elem_of_singleton, !elem_of_cons, elem_of_nil.
    pose proof (not_elem_of_empty (C := gset string) node). tauto.
Qed.

(** C4 as the specification states it fails when a peer makes the call
    raise: with a peer serving a valid chain of two blocks, then a peer out
    of reach, then a peer serving a valid chain of three blocks, the call
    raises, the chain has been replaced by the chain of two blocks, which is
    a candidate but not the longest one, and no value is returned. *)
Lemma resolve_conflicts_raise_keeps_shorter_candidate :
  [bob; carol; alice] ≡ₚ elements (nodes trio_ledger) /\
  resolve_conflicts trio_net [bob; carol; alice] trio_ledger
  = (Raises ConnectionError, adopt chain2 trio_ledger) /\
  candidate trio_net trio_ledger chain2 /\
  candidate trio_net trio_ledger chain3 /\
  (length chain2 < length chain3)%nat /\
  ~ (forall net order self out after,
       order ≡ₚ elements (nodes self) ->
       resolve_conflicts net order self = (out, after) ->
       (chain after = chain self \/
        (candidate net self (chain after) /\
         forall c, candidate net self c ->
                   (length c <= length (chain after))%nat)) /\
       exists replaced,
         out = Returns replaced /\
         (replaced = true <-> chain after <> chain self)).
Proof.
  assert (Hrun : resolve_conflicts trio_net [bob; carol; alice] trio_ledger
                 = (Raises ConnectionError, adopt chain2 trio_ledger)).
  { vm_compute. reflexivity. }
  assert (Hmember : forall node, node = alice \/ node = bob ->
                                 node ∈ nodes trio_ledger).
  { intros node Hnode. unfold trio_ledger. cbn [nodes].
    rewrite !elem_of_union, !elem_of_singleton. tauto. }
  assert (Hthree : candidate trio_net trio_ledger chain3).
  { exists alice. split; [apply Hmember; now left |].
    split; [vm_compute; reflexivity |]. split; [cbn; lia | exact chain3_valid]. }
  split; [exact trio_order |]. split; [exact Hrun |]. split.
  { exists bob. split; [apply Hmember; now right |].
    split; [vm_compute; reflexivity |]. split; [cbn; lia | exact chain2_valid]. }
  split; [exact Hthree |]. split; [cbn; lia |].
  intros Hclaim.
  destruct (Hclaim _ _ _ _ _ trio_order Hrun) as [_ (replaced & Hout & _)].
  discriminate Hout.
Qed.




(** A chain on which validation raises is validated only when it is longer
    than the local chain: visited first, such a peer makes the call raise;
    visited after a peer whose longer chain has been adopted, it is passed
    over and the call returns. *)
Example resolve_conflicts_order_can_matter :
  [alice; bob] ≡ₚ elements (nodes peers_ledger) /\
  [bob; alice] ≡ₚ elements (nodes peers_ledger) /\
  resolve_conflicts surrogate_net [alice; bob] peers_ledger
  = (Raises UnicodeEncodeError, peers_ledger) /\
  resolve_conflicts surrogate_net [bob; alice] peers_ledger
  = (Returns true, adopt chain3 peers_ledger).
Proof.
  split; [vm_compute; first [reflexivity | apply perm_swap] |].
  split; [vm_compute; first [reflexivity | apply perm_swap] |].
  split; vm_compute; reflexivity.
Qed.

(** ** What each operation leaves alone *)

(** C9: [new_transaction] appends one transfer to the pending pool, returns
    it and leaves the chain and the peers as they were; [register_node]
    changes the peers only; [last_block] changes nothing; reconciliation
    leaves the pending pool and the peers as they were; a [new_block] that
    raises changes nothing. So only [new_block] and [resolve_conflicts] ever
    change the chain, and only [new_block] takes transfers out of the
    pool. *)
Theorem chain_and_pending_frame :
  (forall sender recipient amount self,
     new_transaction sender recipient amount self
     = (Returns {| sender := sender; recipient := recipient; amount := amount |},
        {| nodes := nodes self; chain := chain self;
           unverified_transactions :=
             unverified_transactions self
             ++ [{| sender := sender; recipient := recipient;
                    amount := amount |}] |})) /\
  (forall address self,
     register_node address self
     = (Returns tt,
        {| nodes := {[address]} ∪ nodes self; chain := chain self;
           unverified_transactions := unverified_transactions self |})) /\
  (forall self, snd (last_block self) = self) /\
  (forall net order self,
     unverified_transactions (snd (resolve_conflicts net order self))
     = unverified_transactions self /\
     nodes (snd (resolve_conflicts net order self)) = nodes self) /\
  (forall proof previous_hash now self e self',
     new_block proof previous_hash now self = (Raises e, self') -> self' = self).
Proof.
  split; [reflexivity |]. split; [reflexivity |]. split; [| split].
  - intros self. unfold last_block, bind, gets.
    destruct (last (chain self)); reflexivity.
  - intros net order self.
    destruct (resolve_conflicts_loop_frame net order false self) as [Hnodes Hpool].
    split; assumption.
  - intros proof previous_hash now self e self' Hcall.
    destruct (truthy previous_hash) eqn:Htruthy.
    + rewrite new_block_returns in Hcall by assumption. discriminate.
    + rewrite new_block_raises in Hcall by assumption. now injection Hcall.
Qed.

(** ** The two scenarios of the specification, run *)

(** A fresh ledger, two transfers, the proof found for the genesis proof,
    and the block sealed with the fingerprint of the genesis block. *)
Example scenario_seal :
  exists self1 self2 self3 self4 block,
    __init__ t0 empty_ledger = (Returns tt, self1) /\
    new_transaction "A" "B" (Int 10) self1 = (Returns transfer_AB, self2) /\
    new_transaction "B" "C" (Int 5) self2 = (Returns transfer_BC, self3) /\
    valid_proof (proof (genesis t0)) 35293 = true /\
    new_block 35293 (VStr (block_hash (genesis t0))) t1 self3
    = (Returns block, self4) /\
    length (chain self4) = 2%nat /\
    transactions block = [transfer_AB; transfer_BC] /\
    unverified_transactions self4 = [] /\
    valid_chain (chain self4) = true.
Proof.
  exists fresh_ledger, (snd (new_transaction "A" "B" (Int 10) fresh_ledger)),
    pending_ledger, sealed_ledger, sealed_block.
  repeat split; vm_compute; reflexivity.
Qed.

(** Ledger Y holds the genesis block and one sealed block; its only peer X
    serves a chain with the same genesis block and three sealed blocks.
    Reconciling, Y adopts the chain of X and answers [True]. *)
Example scenario_reconcile :
  let fourth_block :=
    {| index := 4; timestamp := t2; transactions := [];
       proof := 119678; previous_hash := VStr (block_hash third_block) |} in
  let chain_x := chain3 ++ [fourth_block] in
  let net : network := fun _ => serves chain_x in
  let y := {| nodes := {[alice]}; chain := chain2; unverified_transactions := [] |} in
  elements (nodes y) = [alice] /\
  valid_chain chain_x = true /\
  resolve_conflicts net [alice] y = (Returns true, adopt chain_x y).
Proof. vm_compute. repeat split; reflexivity. Qed.

(** * Further properties of the code *)

(** ** The puzzle search *)

Lemma proof_of_work_loop_none (last_proof : Z) (fuel : nat) :
  forall start,
    proof_of_work_loop fuel last_proof start = None <->
    forall q, start <= q < start + Z.of_nat fuel -> valid_proof last_proof q = false.
Proof.
  induction fuel as [|fuel IH]; intros start; cbn [proof_of_work_loop].
  - split; [intros _ q Hq; lia | reflexivity].
  - destruct (valid_proof last_proof start) eqn:Htest.
    + split; [discriminate |]. intros Hnone.
      rewrite Hnone in Htest by lia. discriminate.
    + rewrite IH. split; intros Hnone q Hq.
      * destruct (Z.eq_dec q start) as [-> | Hne]; [assumption | apply Hnone; lia].
      * apply Hnone. lia.
Qed.

(** X2: the search tests the candidates 0, 1, 2, ... in this order and
    nothing else. With [fuel] tests it gives up exactly when none of the
    first [fuel] candidates solves the puzzle, and it returns [r] exactly
    when [r] is below [fuel], solves the puzzle and no smaller candidate
    does. *)
Theorem proof_of_work_tests (fuel : nat) (last_proof : Z) :
  (proof_of_work fuel last_proof = None <->
   forall q, 0 <= q < Z.of_nat fuel -> valid_proof last_proof q = false) /\
  (forall r,
     proof_of_work fuel last_proof = Some r <->
     0 <= r < Z.of_nat fuel /\ valid_proof last_proof r = true /\
     forall q, 0 <= q < r -> valid_proof last_proof q = false).
Proof.
  split; [apply proof_of_work_loop_none |].
  intros r. unfold proof_of_work. split.
  - intros Hrun.
    destruct (proof_of_work_loop_sound _ _ _ _ Hrun) as (Hr0 & Hr & Hmin).
    repeat split; try assumption.
    destruct (Z_lt_le_dec r (Z.of_nat fuel)) as [Hlt | Hge]; [assumption |].
    exfalso.
    destruct (proof_of_work_loop fuel last_proof 0) as [r' |] eqn:Hloop;
      [| discriminate].
    injection Hrun as ->.
    assert (Hnone : proof_of_work_loop fuel last_proof 0 = None).
    { apply proof_of_work_loop_none. intros q Hq. apply Hmin. lia. }
    congruence.
  - intros ([Hr0 Hlt] & Hr & Hmin).
    destruct (proof_of_work_loop_complete last_proof r Hr fuel 0) as [r' Hrun];
      [lia | lia |].
    destruct (proof_of_work_loop_sound _ _ _ _ Hrun) as (Hr0' & Hr' & Hmin').
    rewrite Hrun. f_equal.
    destruct (Z.lt_trichotomy r' r) as [Hless | [Heq | Hmore]]; [| assumption |].
    + rewrite Hmin in Hr' by lia. discriminate.
    + rewrite Hmin' in Hr by lia. discriminate.
Qed.

(** ** The chain validator *)

Lemma valid_chain_loop_app (l1 l2 : list Block) :
  forall o,
    valid_chain_loop o (l1 ++ l2)
    = valid_chain_loop o l1
      && valid_chain_loop (match last l1 with Some a => Some a | None => o end) l2.
Proof.
  induction l1 as [|a l1 IH]; intros o.
  - reflexivity.
  - rewrite last_cons. cbn [app]. destruct o as [prev|].
    + rewrite !valid_chain_loop_step, IH, andb_assoc.
      destruct (last l1); reflexivity.
    + cbn [valid_chain_loop]. rewrite IH. destruct (last l1); reflexivity.
Qed.

Lemma valid_chain_loop_head (a : Block) (l : list Block) :
  valid_chain_loop (Some a) l
  = valid_chain l && match head l with Some b => linked a b | None => true end.
Proof.
  destruct l as [|b l]; [reflexivity |].
  rewrite valid_chain_loop_step. cbn [head]. apply andb_comm.
Qed.

(** X3: a chain made of two parts is valid exactly when both parts are valid
    and the first block of the second part is linked to the last block of
    the first; so every run of consecutive blocks of a valid chain is a
    valid chain. *)
Theorem valid_chain_app (l1 l2 : list Block) :
  valid_chain (l1 ++ l2)
  = valid_chain l1 && valid_chain l2
    && match last l1, head l2 with
       | Some a, Some b => linked a b
       | _, _ => true
       end.
Proof.
  unfold valid_chain at 1 2. rewrite valid_chain_loop_app.
  destruct (last l1) as [a|].
  - rewrite valid_chain_loop_head, andb_assoc. reflexivity.
  - fold (valid_chain l2). now rewrite andb_true_r.
Qed.

(** X4: the validator never reads the index, the timestamp or the transfers
    of the last block of a chain: they can be replaced by anything without
    changing the verdict. *)
Theorem valid_chain_last_block_free (l : list Block) (b : Block) (i : Z)
  (t : number) (txs : list Transaction) :
  valid_chain
    (l ++ [{| index := i; timestamp := t; transactions := txs;
              proof := proof b; previous_hash := previous_hash b |}])
  = valid_chain (l ++ [b]).
Proof.
  unfold valid_chain. rewrite !valid_chain_loop_snoc.
  destruct (last l); reflexivity.
Qed.

(** X5: in a valid chain, putting in place of a block that has a successor
    a block with another fingerprint makes the chain invalid, and so does
    giving the successor a proof that fails the puzzle. *)
Theorem valid_chain_detects_change (l1 l2 : list Block) (b c : Block) :
  valid_chain (l1 ++ b :: c :: l2) = true ->
  (forall b', block_hash b' <> block_hash b ->
              valid_chain (l1 ++ b' :: c :: l2) = false) /\
  (forall p, valid_proof (proof b) p = false ->
             valid_chain
               (l1 ++ b :: {| index := index c; timestamp := timestamp c;
                              transactions := transactions c; proof := p;
                              previous_hash := previous_hash c |} :: l2)
             = false).
Proof.
  intros Hvalid.
  assert (Hlink : linked b c = true).
  { apply (proj1 (valid_chain_pairs _) Hvalid (length l1)).
    - now apply list_lookup_middle.
    - rewrite (cons_middle b). rewrite app_assoc.
      apply list_lookup_middle. rewrite length_app. cbn. lia. }
  apply linked_spec in Hlink as [Hprev Hproof].
  split.
  - intros b' Hhash.
    destruct (valid_chain (l1 ++ b' :: c :: l2)) eqn:Hvalid'; [| reflexivity].
    exfalso.
    assert (Hlink' : linked b' c = true).
    { apply (proj1 (valid_chain_pairs _) Hvalid' (length l1)).
      - now apply list_lookup_middle.
      - rewrite (cons_middle b'). rewrite app_assoc.
        apply list_lookup_middle. rewrite length_app. cbn. lia. }
    apply linked_spec in Hlink' as [Hprev' _]. congruence.
  - intros p Hbad.
    match goal with |- valid_chain ?chain = false =>
      destruct (valid_chain chain) eqn:Hvalid'; [| reflexivity] end.
    exfalso.
    match type of Hvalid' with valid_chain (l1 ++ b :: ?c' :: l2) = true =>
      assert (Hlink' : linked b c' = true) end.
    { apply (proj1 (valid_chain_pairs _) Hvalid' (length l1)).
      - now apply list_lookup_middle.
      - rewrite (cons_middle b). rewrite app_assoc.
        apply list_lookup_middle. rewrite length_app. cbn. lia. }
    apply linked_spec in Hlink' as [_ Hproof']. cbn in Hproof'. congruence.
Qed.

Lemma valid_chain_detects_change_witness :
  valid_chain ([] ++ genesis t0 :: sealed_block :: []) = true /\
  block_hash genesis_later <> block_hash (genesis t0) /\
  valid_chain ([] ++ genesis_later :: sealed_block :: []) = false.
Proof.
  assert (Hvalid : valid_chain ([] ++ genesis t0 :: sealed_block :: []) = true).
  { exact chain2_valid. }
  assert (Hhash : block_hash genesis_later <> block_hash (genesis t0)).
  { vm_compute. discriminate. }
  split; [exact Hvalid |]. split; [exact Hhash |].
  exact (proj1 (valid_chain_detects_change [] [] _ _ Hvalid) genesis_later Hhash).
Defined.

(** ** Sealing without checks *)

(** X6: [new_block] tests neither the proof nor the previous hash it is
    given. When it returns on a ledger that has a last block, the chain
    afterwards is valid exactly when it was valid before and the arguments
    are the fingerprint of that last block and a proof that solves the
    puzzle against its proof. *)
Theorem new_block_validity (p : Z) (previous_hash : value) (now : number)
  (self self' : Blockchain) (block prev : Block) :
  new_block p previous_hash now self = (Returns block, self') ->
  last (chain self) = Some prev ->
  valid_chain (chain self')
  = valid_chain (chain self)
    && (value_eqb previous_hash (VStr (block_hash prev))
        && valid_proof (proof prev) p).
Proof.
  intros Hcall Hlast. destruct (truthy previous_hash) eqn:Htruthy.
  - rewrite new_block_returns in Hcall by assumption.
    injection Hcall as <- <-. cbn [chain].
    rewrite (valid_chain_snoc _ prev) by assumption. reflexivity.
  - rewrite new_block_raises in Hcall by assumption. discriminate.
Qed.

Lemma new_block_validity_witness :
  new_block 0 (VStr (block_hash (genesis t0))) t1 pending_ledger
  = (Returns {| index := 2; timestamp := t1;
                transactions := [transfer_AB; transfer_BC]; proof := 0;
                previous_hash := VStr (block_hash (genesis t0)) |},
     adopt [genesis t0;
            {| index := 2; timestamp := t1;
               transactions := [transfer_AB; transfer_BC]; proof := 0;
               previous_hash := VStr (block_hash (genesis t0)) |}]
       sealed_ledger) /\
  last (chain pending_ledger) = Some (genesis t0) /\
  valid_chain
    [genesis t0;
     {| index := 2; timestamp := t1;
        transactions := [transfer_AB; transfer_BC]; proof := 0;
        previous_hash := VStr (block_hash (genesis t0)) |}]
  = false.
Proof.
  assert (Hcall :
    new_block 0 (VStr (block_hash (genesis t0))) t1 pending_ledger
    = (Returns {| index := 2; timestamp := t1;
                  transactions := [transfer_AB; transfer_BC]; proof := 0;
                  previous_hash := VStr (block_hash (genesis t0)) |},
       adopt [genesis t0;
              {| index := 2; timestamp := t1;
                 transactions := [transfer_AB; transfer_BC]; proof := 0;
                 previous_hash := VStr (block_hash (genesis t0)) |}]
         sealed_ledger)).
  { rewrite new_block_returns by apply hash_truthy. reflexivity. }
  split; [exact Hcall |]. split; [reflexivity |].
  pose proof (new_block_validity _ _ _ _ _ _ _ Hcall eq_refl) as Hverdict.
  cbn [chain adopt] in Hverdict. rewrite Hverdict. vm_compute. reflexivity.
Defined.

(** X7: [genesis_block] does not look at the chain. Called on a ledger that
    already has a block, it returns and appends one more block with proof
    100 and previous hash 1, and the chain is then invalid. *)
Theorem genesis_block_again (now : number) (self : Blockchain) :
  chain self <> [] ->
  exists block self',
    genesis_block now self = (Returns block, self') /\
    chain self' = chain self ++ [block] /\
    proof block = 100 /\ previous_hash block = VInt 1 /\
    valid_chain (chain self') = false.
Proof.
  intros Hnonempty.
  destruct (last (chain self)) as [prev|] eqn:Hlast;
    [| apply last_None in Hlast; contradiction].
  unfold genesis_block. rewrite new_block_returns by reflexivity.
  eexists. eexists. split; [reflexivity |]. cbn [chain proof previous_hash].
  repeat split.
  rewrite (valid_chain_snoc _ prev) by assumption.
  unfold linked. cbn. apply andb_false_r.
Qed.

Lemma genesis_block_again_witness :
  chain fresh_ledger <> [] /\
  exists block self',
    genesis_block t1 fresh_ledger = (Returns block, self') /\
    chain self' = chain fresh_ledger ++ [block] /\
    proof block = 100 /\ previous_hash block = VInt 1 /\
    valid_chain (chain self') = false.
Proof.
  assert (Hnonempty : chain fresh_ledger <> []) by discriminate.
  split; [exact Hnonempty | exact (genesis_block_again t1 fresh_ledger Hnonempty)].
Defined.

(** ** The peer set *)

(** X8: [register_node] treats the peers as a set. The address is a peer
    afterwards and no peer is lost; registering an address twice is the same
    as registering it once; the order of two registrations does not matter;
    registering a known peer changes nothing. *)
Theorem register_node_set (a b : string) (self : Blockchain) :
  a ∈ nodes (snd (register_node a self)) /\
  nodes self ⊆ nodes (snd (register_node a self)) /\
  register_node a (snd (register_node a self)) = register_node a self /\
  register_node a (snd (register_node b self))
  = register_node b (snd (register_node a self)) /\
  (a ∈ nodes self -> register_node a self = (Returns tt, self)).
Proof.
  destruct self as [peers blocks pool].
  unfold register_node, bind, gets, set_nodes. cbn.
  split; [set_solver |]. split; [set_solver |].
  split.
  { now rewrite (assoc_L (∪)), (idemp_L (∪)). }
  split.
  { now rewrite !(assoc_L (∪)), (comm_L (∪) {[a]} {[b]}). }
  intros Hin. do 2 f_equal.
  apply subseteq_union_1_L, singleton_subseteq_l, Hin.
Qed.

(** ** Mining *)

Lemma mine_seal_cases (fuel : nat) (node_identifier : string) (now : number)
  (self : Blockchain) :
  mine_seal fuel node_identifier now self
  = match last (chain self) with
    | None => (Raises IndexError, self)
    | Some prev =>
        match proof_of_work fuel (proof prev) with
        | None => (Returns None, self)
        | Some p =>
            let fee := {| sender := "0"; recipient := node_identifier;
                          amount := Int 1 |} in
            let block := {| index := Z.of_nat (length (chain self)) + 1;
                            timestamp := now;
                            transactions := unverified_transactions self ++ [fee];
                            proof := p;
                            previous_hash := VStr (block_hash prev) |} in
            (Returns (Some (block, fee)),
             {| nodes := nodes self; chain := chain self ++ [block];
                unverified_transactions := [] |})
        end
    end.
Proof.
  unfold mine_seal, last_block. unfold bind at 1 2. unfold gets at 1.
  destruct (last (chain self)) as [prev|]; [| reflexivity].
  unfold ret at 1. destruct (proof_of_work fuel (proof prev)) as [p|];
    [| reflexivity].
  unfold bind at 1. unfold new_transaction, bind, gets, set_unverified_transactions.
  cbn [ret nodes chain unverified_transactions].
  unfold ret at 1. fold (bind (A := Block) (B := option (Block * Transaction))).
  unfold bind. rewrite new_block_returns by apply hash_truthy. reflexivity.
Qed.

(** The route is its statements before the [return], and then [json]. *)
Lemma mine_cases (json : Block -> Transaction -> outcome string) (fuel : nat)
  (node_identifier : string) (now : number) (self : Blockchain) :
  mine json fuel node_identifier now self
  = match mine_seal fuel node_identifier now self with
    | (Returns None, self') => (Returns None, self')
    | (Returns (Some (block, fee)), self') =>
        (match json block fee with
         | Returns response => Returns (Some response)
         | Raises e => Raises e
         end, self')
    | (Raises e, self') => (Raises e, self')
    end.
Proof.
  unfold mine. unfold bind at 1.
  destruct (mine_seal fuel node_identifier now self)
    as [[[[block fee] |] | e] self']; try reflexivity.
  destruct (json block fee); reflexivity.
Qed.


(** X9: when the statements of [mine] before its [return] have sealed a
    block, the ledger had a last block; the fee is a transfer of 1 from [0]
    to the node; the block holds the transfers that were pending followed by
    the fee, carries the fingerprint of the former last block and the
    smallest non-negative proof that solves the puzzle against its proof,
    and is appended to the chain; the pending pool is empty; the chain is
    valid afterwards exactly when it was valid before; and this is the
    ledger the route leaves, whatever [json] does with the block. *)
Theorem mine_seals_pending (fuel : nat) (node_identifier : string)
  (now : number) (self self' : Blockchain) (block : Block) (fee : Transaction) :
  mine_seal fuel node_identifier now self = (Returns (Some (block, fee)), self') ->
  exists prev,
    last (chain self) = Some prev /\
    fee = {| sender := "0"; recipient := node_identifier; amount := Int 1 |} /\
    transactions block = unverified_transactions self ++ [fee] /\
    index block = Z.of_nat (length (chain self)) + 1 /\
    previous_hash block = VStr (block_hash prev) /\
    0 <= proof block /\
    valid_proof (proof prev) (proof block) = true /\
    (forall q, 0 <= q < proof block -> valid_proof (proof prev) q = false) /\
    chain self' = chain self ++ [block] /\
    unverified_transactions self' = [] /\
    nodes self' = nodes self /\
    valid_chain (chain self') = valid_chain (chain self) /\
    (forall json,
       mine json fuel node_identifier now self
       = (match json block fee with
          | Returns response => Returns (Some response)
          | Raises e => Raises e
          end, self')).
Proof.
  intros Hseal.
  assert (Hroute : forall json,
            mine json fuel node_identifier now self
            = (match json block fee with
               | Returns response => Returns (Some response)
               | Raises e => Raises e
               end, self')).
  { intros json. rewrite mine_cases, Hseal. reflexivity. }
  revert Hseal Hroute.
  rewrite mine_seal_cases. destruct (last (chain self)) as [prev|] eqn:Hlast;
    [| discriminate].
  destruct (proof_of_work fuel (proof prev)) as [p|] eqn:Hpow; [| discriminate].
  cbn zeta. intros [= <- <- <-] Hroute. exists prev.
  destruct (proof_of_work_loop_sound _ _ _ _ Hpow) as (Hp0 & Hok & Hmin).
  cbn [transactions index previous_hash proof chain unverified_transactions nodes].
  do 11 (split; [first [assumption | reflexivity] |]).
  split; [| exact Hroute].
  rewrite (valid_chain_snoc _ prev) by assumption.
  assert (Hlink : linked prev
            {| index := Z.of_nat (length (chain self)) + 1; timestamp := now;
               transactions :=
                 unverified_transactions self
                 ++ [{| sender := "0"; recipient := node_identifier;
                        amount := Int 1 |}];
               proof := p; previous_hash := VStr (block_hash prev) |} = true).
  { apply linked_spec. split; [reflexivity | exact Hok]. }
  rewrite Hlink. apply andb_true_r.
Qed.

Lemma mine_seals_pending_witness :
  exists block fee self',
    mine_seal (Z.to_nat 35294) alice t1 pending_ledger
    = (Returns (Some (block, fee)), self') /\
    fee = {| sender := "0"; recipient := alice; amount := Int 1 |} /\
    transactions block = [transfer_AB; transfer_BC; fee] /\
    chain self' = [genesis t0; block] /\
    unverified_transactions self' = [] /\
    valid_chain (chain self') = true /\
    mine (fun _ _ => Raises TypeError) (Z.to_nat 35294) alice t1 pending_ledger
    = (Raises TypeError, self').
Proof.
  destruct (proof_of_work_loop_complete 100 35293 valid_proof_100
              (Z.to_nat 35294) 0) as [p Hpow]; [lia | lia |].
  pose proof (mine_seal_cases (Z.to_nat 35294) alice t1 pending_ledger) as Hrun.
  cbn [last chain pending_ledger genesis proof] in Hrun.
  unfold proof_of_work in Hrun. rewrite Hpow in Hrun. cbn zeta in Hrun.
  do 3 eexists. split; [exact Hrun |].
  destruct (mine_seals_pending _ _ _ _ _ _ _ Hrun)
    as (prev & _ & Hfee & _ & _ & _ & _ & _ & _ & _ & _ & _ & Hvalid & Hroute).
  split; [exact Hfee |]. split; [reflexivity |]. split; [reflexivity |].
  split; [reflexivity |]. split; [rewrite Hvalid; reflexivity |].
  exact (Hroute (fun _ _ => Raises TypeError)).
Defined.

(** X10: the outcomes of the [/mine] route. On a ledger with an empty chain
    it raises [IndexError] before it searches or changes anything. On a
    ledger that has a block, either the search has not ended and nothing has
    changed, or a block is sealed and appended, and then the route ends as
    [json] ends on this block and the fee: when [json] raises, the route
    raises the same exception and the block stays on the chain. The fallback
    of [new_block] is out of reach, because a fingerprint is never the empty
    text. *)
Theorem mine_outcomes (json : Block -> Transaction -> outcome string)
  (fuel : nat) (node_identifier : string) (now : number) (self : Blockchain) :
  (chain self = [] ->
   mine json fuel node_identifier now self = (Raises IndexError, self)) /\
  (chain self <> [] ->
   (exists prev,
      last (chain self) = Some prev /\
      proof_of_work fuel (proof prev) = None /\
      mine json fuel node_identifier now self = (Returns None, self)) \/
   (exists block fee self',
      mine_seal fuel node_identifier now self
      = (Returns (Some (block, fee)), self') /\
      chain self' = chain self ++ [block] /\
      mine json fuel node_identifier now self
      = (match json block fee with
         | Returns response => Returns (Some response)
         | Raises e => Raises e
         end, self'))).
Proof.
  rewrite mine_cases, mine_seal_cases. split.
  - intros ->. reflexivity.
  - intros Hnonempty. destruct (last (chain self)) as [prev|] eqn:Hlast.
    + destruct (proof_of_work fuel (proof prev)) as [p|] eqn:Hpow; cbn zeta.
      * right. do 3 eexists. split; [reflexivity |]. split; reflexivity.
      * left. exists prev. repeat split; first [exact Hpow | reflexivity].
    + apply last_None in Hlast. contradiction.
Qed.

(** ** What a running node keeps *)




(** ** Where the submitted transfers are *)

Lemma submitted_invariant (txs : list Transaction) (self : Blockchain) :
  submitted txs self ->
  flat_map transactions (chain self) ++ unverified_transactions self = txs /\
  forall (i : nat) block,
    chain self !! i = Some block -> index block = Z.of_nat i + 1.
Proof.
  assert (Hsnoc : forall (blocks : list Block) (block : Block),
            (forall (i : nat) b, blocks !! i = Some b -> index b = Z.of_nat i + 1) ->
            index block = Z.of_nat (length blocks) + 1 ->
            forall (i : nat) b,
              (blocks ++ [block]) !! i = Some b -> index b = Z.of_nat i + 1).
  { intros blocks block Hold Hnew i b Hi.
    apply lookup_app_Some in Hi as [Hi | [Hge Hi]]; [now apply Hold |].
    apply list_lookup_singleton_Some in Hi as [Hzero <-].
    rewrite Hnew. f_equal. lia. }
  induction 1 as [now self0 self Hinit
                 | txs self sender recipient amount _ IH
                 | txs self address _ IH
                 | txs self p previous_hash now _ IH
                 | txs self self' fuel node_identifier now block fee _ IH Hmine].
  - rewrite init_returns in Hinit. injection Hinit as <-. split; [reflexivity |].
    intros [|i] block Hi; [| discriminate Hi]. now injection Hi as <-.
  - destruct IH as [Hall Hindex]. cbn [snd new_transaction].
    unfold new_transaction, bind, gets, set_unverified_transactions, ret.
    cbn [snd chain unverified_transactions]. split; [| exact Hindex].
    now rewrite app_assoc, Hall.
  - exact IH.
  - destruct IH as [Hall Hindex]. destruct (truthy previous_hash) eqn:Htruthy.
    + rewrite new_block_returns by assumption.
      cbn [snd chain unverified_transactions]. split.
      * rewrite flat_map_app. cbn [flat_map transactions].
        rewrite !app_nil_r. exact Hall.
      * apply Hsnoc; [exact Hindex | reflexivity].
    + rewrite new_block_raises by assumption. split; assumption.
  - destruct IH as [Hall Hindex]. rewrite mine_seal_cases in Hmine.
    destruct (last (chain self)) as [prev|]; [| discriminate].
    destruct (proof_of_work fuel (proof prev)) as [q|]; [| discriminate].
    cbn zeta in Hmine. injection Hmine as <- <- <-.
    cbn [chain unverified_transactions]. split.
    + rewrite flat_map_app. cbn [flat_map transactions].
      rewrite !app_nil_r, app_assoc, Hall. reflexivity.
    + apply Hsnoc; [exact Hindex | reflexivity].
Qed.

(** X12: on a ledger that never reconciled, no transfer is lost, repeated
    or moved: the transfers of the blocks, block after block, followed by
    the pending pool, are the submitted transfers in the order of
    submission (the fee of [mine] counting as submitted when it mines). *)
Theorem submitted_transfers_kept (txs : list Transaction) (self : Blockchain) :
  submitted txs self ->
  flat_map transactions (chain self) ++ unverified_transactions self = txs.
Proof. intros Hsub. apply (submitted_invariant _ _ Hsub). Qed.

Lemma submitted_transfers_kept_witness :
  submitted [transfer_AB; transfer_BC] sealed_ledger /\
  flat_map transactions (chain sealed_ledger)
  ++ unverified_transactions sealed_ledger
  = [transfer_AB; transfer_BC].
Proof.
  assert (H0 : submitted [] fresh_ledger).
  { apply (submitted_init t0 empty_ledger). reflexivity. }
  assert (H1 : submitted [transfer_AB; transfer_BC] pending_ledger).
  { exact (submitted_transaction _ _ "B" "C" (Int 5)
             (submitted_transaction _ _ "A" "B" (Int 10) H0)). }
  pose proof (submitted_block _ _ 35293 (VStr (block_hash (genesis t0))) t1 H1)
    as H2.
  rewrite new_block_returns in H2 by apply hash_truthy.
  change (submitted [transfer_AB; transfer_BC] sealed_ledger) in H2.
  exact (conj H2 (submitted_transfers_kept _ _ H2)).
Defined.

(** X13: on a ledger that never reconciled, the index of every block is its
    position in the chain, counted from 1. *)
Theorem submitted_index_is_position (txs : list Transaction)
  (self : Blockchain) (i : nat) (block : Block) :
  submitted txs self ->
  chain self !! i = Some block ->
  index block = Z.of_nat i + 1.
Proof. intros Hsub. apply (submitted_invariant _ _ Hsub). Qed.

Lemma submitted_index_is_position_witness :
  submitted [transfer_AB; transfer_BC] sealed_ledger /\
  chain sealed_ledger !! 1%nat = Some sealed_block /\
  index sealed_block = Z.of_nat 1 + 1.
Proof.
  assert (H0 : submitted [] fresh_ledger).
  { apply (submitted_init t0 empty_ledger). reflexivity. }
  assert (H1 : submitted [transfer_AB; transfer_BC] pending_ledger).
  { exact (submitted_transaction _ _ "B" "C" (Int 5)
             (submitted_transaction _ _ "A" "B" (Int 10) H0)). }
  pose proof (submitted_block _ _ 35293 (VStr (block_hash (genesis t0))) t1 H1)
    as H2.
  rewrite new_block_returns in H2 by apply hash_truthy.
  change (submitted [transfer_AB; transfer_BC] sealed_ledger) in H2.
  exact (conj H2 (conj eq_refl
           (submitted_index_is_position _ _ 1%nat sealed_block H2 eq_refl))).
Defined.

(** ** Reconciling again, and in another order *)

Section ReconciliationOrder.

Variable net : network.

(** The loop returns when every peer answers and loads, and validation
    raises on no chain longer than the one the loop starts from. *)
Lemma resolve_conflicts_loop_completes_from (order : list string)
  (self0 : Blockchain) :
  (forall node, node ∈ order ->
     (forall e, visit net node <> Fail e) /\
     (forall n e, visit net node = Odd n (Some e) ->
                  (n <= length (chain self0))%nat)) ->
  forall replaced self,
    (length (chain self0) <= length (chain self))%nat ->
    exists b after,
      resolve_conflicts_loop net order replaced self = (Returns b, after).
Proof.
  induction order as [|node rest IH]; intros Hanswer replaced self Hgrown.
  - exists replaced, self. reflexivity.
  - assert (Hrest : forall n, n ∈ rest ->
              (forall e, visit net n <> Fail e) /\
              (forall k e, visit net n = Odd k (Some e) ->
                           (k <= length (chain self0))%nat)).
    { intros n Hin. apply Hanswer, elem_of_cons. now right. }
    destruct (Hanswer node) as [Hfail Hodd]; [apply elem_of_cons; now left |].
    rewrite resolve_conflicts_loop_cons.
    destruct (visit net node) as [| c | n [e |] | e] eqn:Hvisit.
    + now apply IH.
    + destruct ((length (chain self) <? length c)%nat && valid_chain c)
        eqn:Htest; [| now apply IH].
      apply IH; [exact Hrest |].
      apply andb_true_iff in Htest as [Hlonger _].
      apply Nat.ltb_lt in Hlonger. cbn [chain adopt]. lia.
    + pose proof (Hodd n e eq_refl) as Hlen.
      assert (Htest : (length (chain self) <? n)%nat = false)
        by (apply Nat.ltb_ge; lia).
      rewrite Htest. now apply IH.
    + now apply IH.
    + exfalso. exact (Hfail e eq_refl).
Qed.

(** X14: reconciling again changes nothing. After a reconciliation that
    returned, a second one over the same network, in any visiting order of
    the peers, returns [False] and leaves the ledger as it is. *)
Theorem resolve_conflicts_twice (order order' : list string)
  (self after : Blockchain) (replaced : bool) :
  order ≡ₚ elements (nodes self) ->
  order' ≡ₚ elements (nodes self) ->
  resolve_conflicts net order self = (Returns replaced, after) ->
  resolve_conflicts net order' after = (Returns false, after).
Proof.
  intros Hperm Hperm' Hrun. unfold resolve_conflicts in *.
  assert (Hsame : forall node, node ∈ order' -> node ∈ order).
  { intros node Hin. rewrite Hperm. now rewrite Hperm' in Hin. }
  apply resolve_conflicts_loop_settled.
  - intros node Hin.
    exact (resolve_conflicts_loop_answers net _ _ _ _ _ Hrun node (Hsame _ Hin)).
  - intros node c Hin Hoffer Hvalid.
    destruct (resolve_conflicts_loop_returns net _ _ _ _ _ Hrun) as [Hmax _].
    exact (Hmax node c (Hsame _ Hin) Hoffer Hvalid).
Qed.

(** X15: when validation raises on no fetched chain that is longer than the
    local one, the visiting order of the peers decides neither whether the
    call returns, nor what it returns, nor how long the chain is afterwards
    (it can decide which of several longest chains is adopted). *)
Theorem resolve_conflicts_any_order (order order' : list string)
  (self after : Blockchain) (replaced : bool) :
  order ≡ₚ elements (nodes self) ->
  order' ≡ₚ elements (nodes self) ->
  (forall node n e,
     node ∈ nodes self -> visit net node = Odd n (Some e) ->
     (n <= length (chain self))%nat) ->
  resolve_conflicts net order self = (Returns replaced, after) ->
  exists after',
    resolve_conflicts net order' self = (Returns replaced, after') /\
    length (chain after') = length (chain after).
Proof.
  intros Hperm Hperm' Hquiet Hrun. unfold resolve_conflicts in *.
  assert (Hto : forall node, node ∈ order' -> node ∈ order).
  { intros node Hin. rewrite Hperm. now rewrite Hperm' in Hin. }
  assert (Hfrom : forall node, node ∈ order -> node ∈ order').
  { intros node Hin. rewrite Hperm'. now rewrite Hperm in Hin. }
  destruct (resolve_conflicts_loop_completes_from order' self)
    with (replaced := false) (self := self) as (replaced' & after' & Hrun').
  { intros node Hin. split.
    - exact (proj1 (resolve_conflicts_loop_answers net _ _ _ _ _ Hrun node
                      (Hto _ Hin))).
    - intros n e. apply Hquiet. now apply (elem_of_order order'). }
  { lia. }
  destruct (resolve_conflicts_loop_returns net _ _ _ _ _ Hrun) as [Hmax Hcase].
  destruct (resolve_conflicts_loop_returns net _ _ _ _ _ Hrun') as [Hmax' Hcase'].
  pose proof (resolve_conflicts_loop_chain net order false self) as Hchain.
  pose proof (resolve_conflicts_loop_chain net order' false self) as Hchain'.
  rewrite Hrun in Hchain. rewrite Hrun' in Hchain'.
  cbn [snd] in Hchain, Hchain'. cbn zeta in Hchain, Hchain'.
  assert (Hle : (length (chain after') <= length (chain after))%nat).
  { destruct Hchain' as [-> | (node & Hin & Hoffer & _ & Hvalid)].
    - destruct Hcase as [[_ ->] | [_ Hlen]]; lia.
    - exact (Hmax node _ (Hto _ Hin) Hoffer Hvalid). }
  assert (Hge : (length (chain after) <= length (chain after'))%nat).
  { destruct Hchain as [-> | (node & Hin & Hoffer & _ & Hvalid)].
    - destruct Hcase' as [[_ ->] | [_ Hlen]]; lia.
    - exact (Hmax' node _ (Hfrom _ Hin) Hoffer Hvalid). }
  exists after'. split; [| lia].
  rewrite Hrun'. do 2 f_equal.
  destruct Hcase as [[-> Hsame] | [-> Hlen]];
    destruct Hcase' as [[-> Hsame'] | [-> Hlen']]; try reflexivity.
  - rewrite Hsame in Hle. lia.
  - rewrite Hsame' in Hge. lia.
Qed.

End ReconciliationOrder.

Lemma resolve_conflicts_twice_witness :
  [bob; alice] ≡ₚ elements (nodes peers_ledger) /\
  [alice; bob] ≡ₚ elements (nodes peers_ledger) /\
  resolve_conflicts good_net [bob; alice] peers_ledger
  = (Returns true, adopt chain3 peers_ledger) /\
  resolve_conflicts good_net [alice; bob] (adopt chain3 peers_ledger)
  = (Returns false, adopt chain3 peers_ledger).
Proof.
  assert (Hperm : [bob; alice] ≡ₚ elements (nodes peers_ledger)).
  { vm_compute. first [reflexivity | apply perm_swap]. }
  assert (Hperm' : [alice; bob] ≡ₚ elements (nodes peers_ledger)).
  { vm_compute. first [reflexivity | apply perm_swap]. }
  assert (Hrun : resolve_conflicts good_net [bob; alice] peers_ledger
                 = (Returns true, adopt chain3 peers_ledger)).
  { vm_compute. reflexivity. }
  exact (conj Hperm (conj Hperm' (conj Hrun
           (resolve_conflicts_twice good_net _ _ _ _ _ Hperm Hperm' Hrun)))).
Defined.

Lemma resolve_conflicts_any_order_witness :
  [bob; alice] ≡ₚ elements (nodes peers_ledger) /\
  [alice; bob] ≡ₚ elements (nodes peers_ledger) /\
  (forall node n e,
     node ∈ nodes peers_ledger -> visit good_net node = Odd n (Some e) ->
     (n <= length (chain peers_ledger))%nat) /\
  resolve_conflicts good_net [bob; alice] peers_ledger
  = (Returns true, adopt chain3 peers_ledger) /\
  exists after',
    resolve_conflicts good_net [alice; bob] peers_ledger = (Returns true, after') /\
    length (chain after') = length (chain (adopt chain3 peers_ledger)).
Proof.
  assert (Hperm : [bob; alice] ≡ₚ elements (nodes peers_ledger)).
  { vm_compute. first [reflexivity | apply perm_swap]. }
  assert (Hperm' : [alice; bob] ≡ₚ elements (nodes peers_ledger)).
  { vm_compute. first [reflexivity | apply perm_swap]. }
  assert (Hquiet : forall node n e,
            node ∈ nodes peers_ledger -> visit good_net node = Odd n (Some e) ->
            (n <= length (chain peers_ledger))%nat).
  { intros node n e _. unfold visit, good_net.
    destruct (String.eqb (chain_url node) (chain_url bob)); discriminate. }
  assert (Hrun : resolve_conflicts good_net [bob; alice] peers_ledger
                 = (Returns true, adopt chain3 peers_ledger)).
  { vm_compute. reflexivity. }
  exact (conj Hperm (conj Hperm' (conj Hquiet (conj Hrun
           (resolve_conflicts_any_order good_net _ _ _ _ _ Hperm Hperm' Hquiet
              Hrun))))).
Defined.
